(** * kots: dependency graph of config items and the redactor migration

    A shallow embedding of
      - [pkg/template/depgraph.go]  (type [depGraph] and its methods), and
      - [kotsadm/pkg/redact/redact.go]  ([getSlug], [splitRedactors],
        [GetRedactInfo], [GetRedact], [GetRedactBySlug], [SetRedactYaml],
        [DeleteRedact], [buildFullRedact]),
    followed by the properties established about them.

    Conventions.
      - A Go [map[string]struct{}] is a [gset string]; a Go
        [map[string]V] is a [gmap string V].  A nil map reads like the
        empty map, which is why [Dependencies] is an [option].
      - A method with a pointer receiver is a function from the receiver's
        state to its new state (and the results).
      - Go leaves the order of [range] over a map unspecified.  The body of
        a function that ranges over a map is therefore written over an
        explicit enumeration of that map, and the properties are proved
        for every enumeration the runtime may choose ([visits]).
      - Map values are references in Go.  Module [Store] models them with
        an explicit heap; it is used where sharing matters ([Copy]). *)

From Stdlib Require Import Ascii String DecimalString DecimalNat.
From stdpp Require Import gmap strings list fin_maps sets relations.

Local Open Scope stdpp_scope.

(* ===================================================================== *)
(** * Strings: [strings.Join], [fmt.Sprintf("%q")], [fmt.Sprintf("%d")] *)
(* ===================================================================== *)

(** [strings.Join(elems, sep)]. *)
Fixpoint Join (elems : list string) (sep : string) : string :=
  match elems with
  | [] => EmptyString
  | [x] => x
  | x :: rest => x +:+ sep +:+ Join rest sep
  end.

Definition dquote : ascii := "034"%char.
Definition backslash : ascii := "092"%char.

Definition lowerhex (n : N) : ascii :=
  match n with
  | 0 => "0" | 1 => "1" | 2 => "2" | 3 => "3" | 4 => "4" | 5 => "5"
  | 6 => "6" | 7 => "7" | 8 => "8" | 9 => "9" | 10 => "a" | 11 => "b"
  | 12 => "c" | 13 => "d" | 14 => "e" | _ => "f"
  end%N%char.

(** [strconv.appendEscapedRune] for one byte of the string.  It is exact on
    ASCII (bytes below 0x80): the quote and the backslash are backslashed,
    printable bytes are copied, the seven control characters with a
    mnemonic get it, the other control bytes become [\xHH].  A byte from
    0x80 on is part of a multi-byte UTF-8 sequence; Go copies such a
    sequence when it encodes a printable rune, and that is what this model
    does for every such byte (the Unicode tables behind [strconv.IsPrint]
    are not modelled). *)
Definition quoteByte (c : ascii) : string :=
  let n := N_of_ascii c in
  if decide (c = dquote ∨ c = backslash) then String backslash (String c EmptyString)
  else if decide (32 ≤ n < 127)%N then String c EmptyString
  else if decide (n = 7)%N then String backslash "a"
  else if decide (n = 8)%N then String backslash "b"
  else if decide (n = 12)%N then String backslash "f"
  else if decide (n = 10)%N then String backslash "n"
  else if decide (n = 13)%N then String backslash "r"
  else if decide (n = 9)%N then String backslash "t"
  else if decide (n = 11)%N then String backslash "v"
  else if decide (n < 32 ∨ n = 127)%N then
    String backslash
      (String "x" (String (lowerhex (n / 16)) (String (lowerhex (n mod 16)) EmptyString)))
  else String c EmptyString.

Fixpoint quoteBody (s : string) : string :=
  match s with
  | EmptyString => EmptyString
  | String c rest => quoteByte c +:+ quoteBody rest
  end.

(** [fmt.Sprintf("%q", s)], that is [strconv.Quote s]. *)
Definition Quote (s : string) : string :=
  String dquote (quoteBody s +:+ String dquote EmptyString).

(** [fmt.Sprintf("%d", n)] for a non-negative [n]. *)
Definition Itoa (n : nat) : string := NilZero.string_of_uint (Nat.to_uint n).

(* ===================================================================== *)
(** * The dependency graph ([pkg/template/depgraph.go])                  *)
(* ===================================================================== *)

(** [type depGraph struct { Dependencies map[string]map[string]struct{} }] *)
Record depGraph := mkDepGraph {
  Dependencies : option (gmap string (gset string))
}.

Global Instance depGraph_eq_dec : EqDecision depGraph.
Proof. solve_decision. Defined.

(** What reading [d.Dependencies] yields: a nil map reads as empty. *)
Definition table (d : depGraph) : gmap string (gset string) :=
  default ∅ (Dependencies d).

(** [func (d *depGraph) AddNode(source string)] *)
Definition AddNode (source : string) (d : depGraph) : depGraph :=
  let m := match Dependencies d with
           | None => ∅            (* make(map[string]map[string]struct{}) *)
           | Some m => m
           end in
  match m !! source with
  | Some _ => {| Dependencies := Some m |}
  | None => {| Dependencies := Some (<[source := ∅]> m) |}
  end.

(** [func (d *depGraph) AddDep(source, newDependency string)] *)
Definition AddDep (source newDependency : string) (d : depGraph) : depGraph :=
  let d := AddNode source d in
  match Dependencies d with
  | None => d
  | Some m =>
      {| Dependencies :=
           Some (alter (λ depMap : gset string, {[newDependency]} ∪ depMap) source m) |}
  end.

(** [func (d *depGraph) ResolveDep(resolvedDependency string)] *)
Definition ResolveDep (resolvedDependency : string) (d : depGraph) : depGraph :=
  match Dependencies d with
  | None => d
  | Some m =>
      let m := (λ depMap : gset string, depMap ∖ {[resolvedDependency]}) <$> m in
      {| Dependencies := Some (delete resolvedDependency m) |}
  end.

(** One pass of [range] over a [map[string]map[string]struct{}], the inner
    maps ranged over as well: every key once, with every element of its
    set once, in some order. *)
Definition enumeration := list (string * list string).

Definition visits (m : gmap string (gset string)) (e : enumeration) : Prop :=
  ((λ kv, (kv.1, list_to_set kv.2)) <$> e) ≡ₚ map_to_list m
  ∧ Forall (λ kv, NoDup kv.2) e.

(** The enumeration used when the model is run. *)
Definition enum (m : gmap string (gset string)) : enumeration :=
  (λ kv, (kv.1, elements kv.2)) <$> map_to_list m.

Definition waitItem (kv : string * list string) : string :=
  Quote kv.1 +:+ " depends on " +:+ Join (Quote <$> kv.2) ", ".

(** The nodes the first loop of [GetHeadNodes] collects when it visits the
    map in the order [e]. *)
Definition heads_in (e : enumeration) : list string :=
  (filter (λ kv : string * list string, length kv.2 = 0) e).*1.

(** The body of [GetHeadNodes], given the order [e1] in which the first
    loop visits the map and the order [e2] of the second. *)
Definition GetHeadNodes_in (e1 e2 : enumeration) : list string * option string :=
  let headNodes := heads_in e1 in
  if decide (length headNodes = 0 ∧ length e1 ≠ 0) then
    let waitList := waitItem <$> e2 in
    (headNodes,
     Some ("no config options exist with 0 dependencies - " +:+ Join waitList "; "))
  else (headNodes, None).

(** [func (d *depGraph) GetHeadNodes() ([]string, error)]: the receiver's
    state after the call, and the two results. *)
Definition GetHeadNodes (d : depGraph) : depGraph * (list string * option string) :=
  (d, GetHeadNodes_in (enum (table d)) (enum (table d))).

(** Every result the call can have, whatever order the runtime picks. *)
Definition GetHeadNodes_may (d : depGraph) (r : depGraph * (list string * option string)) : Prop :=
  ∃ e1 e2, visits (table d) e1 ∧ visits (table d) e2 ∧ r = (d, GetHeadNodes_in e1 e2).

(** ** The recording function table *)

(** A template function of the table: it receives its first argument, the
    remaining (variadic) arguments, and the graph its closure points to;
    it returns the graph after the call and its string result. *)
Definition TemplateFunc := string → list string → depGraph → depGraph * string.

(** [func (d *depGraph) funcMap(parent string) template.FuncMap] *)
Definition funcMap (parent : string) : gmap string TemplateFunc :=
  let addDepFunc : TemplateFunc := λ dep _ d, (AddDep parent dep d, dep) in
  <["ConfigOption" := addDepFunc]>
  (<["ConfigOptionIndex" := addDepFunc]>
  (<["ConfigOptionData" := addDepFunc]>
  (<["ConfigOptionEquals" := addDepFunc]>
  (<["ConfigOptionNotEquals" := addDepFunc]> ∅)))).

(** [kotsv1beta1.ConfigItem] and [kotsv1beta1.ConfigGroup], reduced to the
    fields [ParseConfigGroup] reads; [Default] and [Value] stand for
    [configItem.Default.String()] and [configItem.Value.String()]. *)
Record ConfigItem := mkConfigItem {
  ItemName : string;
  Default : string;
  Value : string
}.

Record ConfigGroup := mkConfigGroup { Items : list ConfigItem }.

Section ParseConfigGroup.
(** [Builder.String] is the rendering primitive.  It is not part of
    [depgraph.go]; all that matters here is that it is handed a function
    table and a template, may call the functions of the table (which
    changes the graph), and returns a string or an error. *)
Variable BuilderString :
  gmap string TemplateFunc → string → depGraph → depGraph * (string * option string).

Definition parseItem (d : depGraph) (configItem : ConfigItem) : depGraph :=
  let d := AddNode (ItemName configItem) d in
  let Functs := funcMap (ItemName configItem) in
  let d := (BuilderString Functs (Default configItem) d).1 in
  let d := (BuilderString Functs (Value configItem) d).1 in
  d.

(** [func (d *depGraph) ParseConfigGroup(configGroups []ConfigGroup) error] *)
Definition ParseConfigGroup (configGroups : list ConfigGroup) (d : depGraph)
  : depGraph * option string :=
  (foldl (λ d configGroup, foldl parseItem d (Items configGroup)) d configGroups, None).
End ParseConfigGroup.

(** ** Sequences of calls on one graph *)

Inductive call :=
  | CallAddNode (source : string)
  | CallAddDep (source newDependency : string)
  | CallResolveDep (resolvedDependency : string).

Definition exec (c : call) (d : depGraph) : depGraph :=
  match c with
  | CallAddNode source => AddNode source d
  | CallAddDep source newDependency => AddDep source newDependency d
  | CallResolveDep x => ResolveDep x d
  end.

Definition run (cs : list call) (d : depGraph) : depGraph :=
  foldl (λ d c, exec c d) d cs.

(** [ResolveDep] is meant for a node that [GetHeadNodes] has returned: a
    sequence of calls keeps to that when every [ResolveDep x] in it finds
    [x] with an empty dependency set. *)
Fixpoint resolves_heads_only (d : depGraph) (cs : list call) : Prop :=
  match cs with
  | [] => True
  | c :: cs =>
      match c with
      | CallResolveDep x => table d !! x = Some ∅
      | _ => True
      end ∧ resolves_heads_only (exec c d) cs
  end.

(** ** Edges, cycles *)

Definition edge (m : gmap string (gset string)) (a b : string) : Prop :=
  ∃ deps, m !! a = Some deps ∧ b ∈ deps.

Definition acyclic (m : gmap string (gset string)) : Prop :=
  ∀ x, ¬ tc (edge m) x x.

(** Every name some node depends on is itself a node. *)
Definition closed (m : gmap string (gset string)) : Prop :=
  ∀ a b, edge m a b → is_Some (m !! b).

(** [ResolveDep] called for every node of a batch in turn. *)
Definition ResolveDeps (nodes : list string) (d : depGraph) : depGraph :=
  foldl (λ d node, ResolveDep node d) d nodes.

(** ** The resolution loop *)

Section Resolution.
Context {V : Type}.

(** Rendering one item with the full function table, given the values
    resolved so far. *)
Variable render : list (string * V) → string → V.

(** The orders in which the two loops of [GetHeadNodes] visit the map. *)
Variable pick : gmap string (gset string) → enumeration * enumeration.

Inductive outcome :=
  | Done (values : list (string * V)) (iterations : nat)
  | Failed (err : string) (values : list (string * V))
  | Pending (d : depGraph) (values : list (string * V)).

(** Modelled from the spec: one transition of the resolution pass, whose
    code (the caller of [GetHeadNodes] and [ResolveDep]) is not in
    [depgraph.go].  "compute GetHeadNodes(). If this fails, the whole
    resolution terminates with a fatal error. If it returns a non-empty
    set, render each head node, store each result as a ResolvedValue,
    then call ResolveDep(name) for every node resolved in this
    iteration." *)
Definition iteration (d : depGraph) (values : list (string * V))
  : (depGraph * list (string * V) * list string) + string :=
  let '(e1, e2) := pick (table d) in
  let '(headNodes, err) := GetHeadNodes_in e1 e2 in
  match err with
  | Some msg => inr msg
  | None =>
      let values := foldl (λ vs node, vs ++ [(node, render vs node)]) values headNodes in
      let d := ResolveDeps headNodes d in
      inl (d, values, headNodes)
  end.

(** Modelled from the spec: the state machine of the resolution pass.
    "State Pending: graph non-empty.  Terminal state: Done, reached when
    the graph becomes empty."  [fuel] bounds the number of iterations
    that are run. *)
Fixpoint resolve (fuel : nat) (d : depGraph) (values : list (string * V)) (iterations : nat)
  : outcome :=
  if decide (table d = ∅) then Done values iterations
  else
    match fuel with
    | 0 => Pending d values
    | S fuel =>
        match iteration d values with
        | inr msg => Failed msg values
        | inl (d, values, _) => resolve fuel d values (S iterations)
        end
    end.
End Resolution.

Definition pick_enum (m : gmap string (gset string)) : enumeration * enumeration :=
  (enum m, enum m).

(** A choice of orders is admissible when both are enumerations of the map. *)
Definition valid_pick (pick : gmap string (gset string) → enumeration * enumeration) : Prop :=
  ∀ m, visits m (pick m).1 ∧ visits m (pick m).2.

(** A walk along edges: from [x] through the nodes of [l] in turn. *)
Fixpoint chain (m : gmap string (gset string)) (x : string) (l : list string) : Prop :=
  match l with
  | [] => True
  | y :: l => edge m x y ∧ chain m y l
  end.

(** The graphs the model is run on. *)
Definition emptyGraph : depGraph := {| Dependencies := None |}.
Definition graph_A_BC : depGraph := AddDep "A" "C" (AddDep "A" "B" emptyGraph).
Definition graph_cycle : depGraph := AddDep "B" "A" (AddDep "A" "B" emptyGraph).
Definition graph_dangling : depGraph := AddDep "A" "B" emptyGraph.
Definition graph_B_A : depGraph := AddDep "B" "A" (AddNode "A" emptyGraph).

(* ===================================================================== *)
(** * Map values as references: the graph on a heap                      *)
(* ===================================================================== *)

Module Store.

Definition loc := positive.

(** The map objects of the heap.  An object of type
    [map[string]map[string]struct{}] holds references to objects of type
    [map[string]struct{}].  The methods of [depGraph] never store a nil
    inner map, so the values are plain references. *)
Record heap := mkHeap {
  outer : gmap loc (gmap string loc);
  inner : gmap loc (gset string)
}.

(** The struct [depGraph]: its field is nil or a reference. *)
Record depGraph := mkDepGraph { Dependencies : option loc }.

(** [make(map[string]map[string]struct{})] and [make(map[string]struct{})],
    filled with the given content. *)
Definition alloc_outer (h : heap) (m : gmap string loc) : loc * heap :=
  let l := fresh (dom (outer h)) in
  (l, {| outer := <[l := m]> (outer h); inner := inner h |}).

Definition alloc_inner (h : heap) (s : gset string) : loc * heap :=
  let l := fresh (dom (inner h)) in
  (l, {| outer := outer h; inner := <[l := s]> (inner h) |}).

Definition AddNode (source : string) (h : heap) (d : depGraph) : heap * depGraph :=
  let '(h, o) := match Dependencies d with
                 | None => let '(o, h) := alloc_outer h ∅ in (h, o)
                 | Some o => (h, o)
                 end in
  let d := {| Dependencies := Some o |} in
  match outer h !! o with
  | None => (h, d)
  | Some m =>
      match m !! source with
      | Some _ => (h, d)
      | None =>
          let '(l, h) := alloc_inner h ∅ in
          ({| outer := <[o := <[source := l]> m]> (outer h); inner := inner h |}, d)
      end
  end.

Definition AddDep (source newDependency : string) (h : heap) (d : depGraph)
  : heap * depGraph :=
  let '(h, d) := AddNode source h d in
  match (o ← Dependencies d; m ← outer h !! o; m !! source) with
  | None => (h, d)
  | Some l =>
      ({| outer := outer h;
          inner := alter (λ depMap, {[newDependency]} ∪ depMap) l (inner h) |}, d)
  end.

Definition ResolveDep (resolvedDependency : string) (h : heap) (d : depGraph)
  : heap * depGraph :=
  match Dependencies d with
  | None => (h, d)
  | Some o =>
      match outer h !! o with
      | None => (h, d)
      | Some m =>
          let inner' :=
            foldr (λ l, alter (λ depMap, depMap ∖ {[resolvedDependency]}) l)
                  (inner h) (map_to_list m).*2 in
          ({| outer := <[o := delete resolvedDependency m]> (outer h);
              inner := inner' |}, d)
      end
  end.

(** The JSON text [enc.Encode(d.Dependencies)] writes, parsed: [null], or
    an object whose members are objects whose members are all [{}].
    Member names are taken to survive the trip through the text;
    [encoding/json] guarantees that for names that are valid UTF-8. *)
Definition document := option (list (string * list string)).

Definition Encode (h : heap) (v : option loc) : document + string :=
  match v with
  | None => inl None
  | Some o =>
      inl (Some ((λ kl : string * loc,
                    (kl.1, elements (default ∅ (inner h !! kl.2))))
                 <$> map_to_list (default ∅ (outer h !! o))))
  end.

(** Decoding one member of the outer object: a new inner map is made,
    filled, and stored under the member's name. *)
Definition decodeMember (o : loc) (h : heap) (kv : string * list string) : heap :=
  let '(l, h) := alloc_inner h (list_to_set kv.2) in
  {| outer := alter (λ m, <[kv.1 := l]> m) o (outer h); inner := inner h |}.

(** [dec.Decode(&depCopy)] with [depCopy] nil. *)
Definition Decode (h : heap) (doc : document) : (heap * option loc) + string :=
  match doc with
  | None => inl (h, None)
  | Some members =>
      let '(o, h) := alloc_outer h ∅ in
      inl (foldl (decodeMember o) h members, Some o)
  end.

(** [func (d *depGraph) Copy() (depGraph, error)] *)
Definition Copy (h : heap) (d : depGraph) : heap * (depGraph * option string) :=
  match Encode h (Dependencies d) with
  | inr err => (h, ({| Dependencies := None |}, Some err))
  | inl buf =>
      match Decode h buf with
      | inr err => (h, ({| Dependencies := None |}, Some err))
      | inl (h, depCopy) => (h, ({| Dependencies := depCopy |}, None))
      end
  end.

Definition exec (c : call) (h : heap) (d : depGraph) : heap * depGraph :=
  match c with
  | CallAddNode source => AddNode source h d
  | CallAddDep source newDependency => AddDep source newDependency h d
  | CallResolveDep x => ResolveDep x h d
  end.

(** Two graphs on one heap. *)
Inductive which := Original | TheCopy.

Global Instance which_eq_dec : EqDecision which.
Proof. solve_decision. Defined.

Definition exec2 (wc : which * call) (st : heap * depGraph * depGraph)
  : heap * depGraph * depGraph :=
  let '(h, d, c) := st in
  match wc.1 with
  | Original => let '(h, d) := exec wc.2 h d in (h, d, c)
  | TheCopy => let '(h, c) := exec wc.2 h c in (h, d, c)
  end.

Definition run2 (script : list (which * call)) (st : heap * depGraph * depGraph)
  : heap * depGraph * depGraph :=
  foldl (λ st wc, exec2 wc st) st script.

(** No dangling reference, and no inner map stored under two names. *)
Definition wf (h : heap) (d : depGraph) : Prop :=
  ∀ o, Dependencies d = Some o →
    ∃ m, outer h !! o = Some m
         ∧ (∀ k l, m !! k = Some l → is_Some (inner h !! l))
         ∧ (∀ k1 k2 l, m !! k1 = Some l → m !! k2 = Some l → k1 = k2).

(** The map objects a graph reaches. *)
Definition outer_of (d : depGraph) : gset loc :=
  match Dependencies d with None => ∅ | Some o => {[o]} end.

Definition inner_of (h : heap) (d : depGraph) : gset loc :=
  match (o ← Dependencies d; outer h !! o) with
  | None => ∅
  | Some m => list_to_set (map_to_list m).*2
  end.

Definition separate (h : heap) (d c : depGraph) : Prop :=
  outer_of d ## outer_of c ∧ inner_of h d ## inner_of h c.

End Store.

(** The set read through a reference to an inner map. *)
Definition content (h : Store.heap) (l : Store.loc) : gset string :=
  default ∅ (Store.inner h !! l).

(** What a graph on the heap holds, as a value. *)
Definition view (h : Store.heap) (d : Store.depGraph) : depGraph :=
  {| Dependencies :=
       match Store.Dependencies d with
       | None => None
       | Some o =>
           match Store.outer h !! o with
           | None => None
           | Some m =>
               Some (content h <$> m)
           end
       end |}.

Definition calls_of (w : Store.which) (script : list (Store.which * call)) : list call :=
  (filter (λ wc, wc.1 = w) script).*2.

(** What a call on [d] guarantees: the graph it leaves is well formed and
    holds [pure]; map objects that existed before and that [d] did not
    reach are as they were; the map objects the graph reaches now were
    reached before or are new. *)
Definition step_ok (h : Store.heap) (d : Store.depGraph)
    (r : Store.heap * Store.depGraph) (pure : depGraph) : Prop :=
  Store.wf r.1 r.2
  ∧ view r.1 r.2 = pure
  ∧ (∀ o, o ∈ dom (Store.outer h) → o ∉ Store.outer_of d →
       Store.outer r.1 !! o = Store.outer h !! o)
  ∧ (∀ l, l ∈ dom (Store.inner h) → l ∉ Store.inner_of h d →
       Store.inner r.1 !! l = Store.inner h !! l)
  ∧ (∀ o, o ∈ Store.outer_of r.2 → o ∈ Store.outer_of d ∨ o ∉ dom (Store.outer h))
  ∧ (∀ l, l ∈ Store.inner_of r.1 r.2 → l ∈ Store.inner_of h d ∨ l ∉ dom (Store.inner h)).

(** The condition kept by every script that runs on two separate graphs. *)
Definition apart (st : Store.heap * Store.depGraph * Store.depGraph) : Prop :=
  let '(h, d, c) := st in Store.wf h d ∧ Store.wf h c ∧ Store.separate h d c.

(** The state of [Decode] while it fills the new outer map at [o']: [h] is
    the heap before the call, [hc] the heap now, [M] the new outer map and
    [Mv] what it holds. *)
Definition decoding (h : Store.heap) (o' : Store.loc) (hc : Store.heap)
    (M : gmap string Store.loc) (Mv : gmap string (gset string)) : Prop :=
  Store.outer hc = <[o' := M]> (Store.outer h)
  ∧ Store.inner h ⊆ Store.inner hc
  ∧ (∀ k l, M !! k = Some l → (l ∉ dom (Store.inner h)) ∧ is_Some (Store.inner hc !! l))
  ∧ (∀ k1 k2 l, M !! k1 = Some l → M !! k2 = Some l → k1 = k2)
  ∧ content hc <$> M = Mv.

(** The heap and the graph the model is run on. *)
Definition emptyHeap : Store.heap := {| Store.outer := ∅; Store.inner := ∅ |}.
Definition nilGraph : Store.depGraph := {| Store.Dependencies := None |}.
Definition heap_A_B : Store.heap * Store.depGraph :=
  Store.AddDep "A" "B" emptyHeap nilGraph.

(* ===================================================================== *)
(** * Redactors ([kotsadm/pkg/redact/redact.go])                         *)
(* ===================================================================== *)

(** [strings.ReplaceAll(name, " ", "-")] *)
Fixpoint replaceSpaces (name : string) : string :=
  match name with
  | EmptyString => EmptyString
  | String c rest =>
      String (if decide (c = " "%char) then "-"%char else c) (replaceSpaces rest)
  end.

(** The bytes the class [[^\w\d-_]] does not match: letters, digits, the
    underscore and the hyphen.  Every other byte is matched, and so is
    every byte of a multi-byte UTF-8 sequence. *)
Definition wordByte (c : ascii) : bool :=
  let n := N_of_ascii c in
  bool_decide ((48 ≤ n ≤ 57)%N ∨ (65 ≤ n ≤ 90)%N ∨ (97 ≤ n ≤ 122)%N
               ∨ n = 95%N ∨ n = 45%N).

(** [regexp.MustCompile(...).ReplaceAllString(name, empty)]: every match
    of the class is removed. *)
Fixpoint stripNonWord (name : string) : string :=
  match name with
  | EmptyString => EmptyString
  | String c rest =>
      if wordByte c then String c (stripNonWord rest) else stripNonWord rest
  end.

(** [func getSlug(name string) string] *)
Definition getSlug (name : string) : string :=
  let name := replaceSpaces name in
  let name := stripNonWord name in
  name.

(** The key of the combined redact list. *)
Definition legacyKey : string := "kotsadm-redact".

Section Redact.
(** [time.Time], and the fields of [v1beta1.Redact] other than [Name]. *)
Context {Time Body : Type}.

(** [v1beta1.Redact] *)
Record Redact := mkRedact {
  RedactName : string;
  RedactBody : Body
}.

(** [type RedactorList struct] *)
Record RedactorList := mkRedactorList {
  Name : string;
  Slug : string;
  Created : Time;
  Updated : Time;
  Enabled : bool;
  Description : string
}.

(** [type RedactorMetadata struct] *)
Record RedactorMetadata := mkRedactorMetadata {
  Metadata : RedactorList;
  RedactSpec : Redact
}.

(** What the deserializer of the scheme makes of a document: [None] is an
    error; otherwise the object is a [v1beta1.Redactor] with its
    [Spec.Redactors] (a slice of pointers, some of them nil), or it is an
    object of another kind. *)
Inductive decoded :=
  | IsRedactor (Redactors : list (option Redact))
  | OtherKind.

Variable decode : string → option decoded.
(** [json.Marshal] and [json.Unmarshal] on [RedactorMetadata]. *)
Variable Marshal : RedactorMetadata → option string.
Variable Unmarshal : string → option RedactorMetadata.
(** [time.Now()]: the reading of the clock at its n-th call. *)
Variable Now : nat → Time.

(** The name a rule of the combined document is split under. *)
Definition redactorNameOf (idx : nat) (redactorSpec : Redact) : string :=
  if decide (RedactName redactorSpec ≠ EmptyString) then RedactName redactorSpec
  else "redactor-" +:+ Itoa idx.

(** The entry made for the rule at [idx], the clock having been read [t]
    times. *)
Definition newRedactor (idx : nat) (redactorSpec : Redact) (t : nat) : RedactorMetadata :=
  let redactorName := redactorNameOf idx redactorSpec in
  {| Metadata := {| Name := redactorName;
                    Slug := getSlug redactorName;
                    Created := Now t;
                    Updated := Now (S t);
                    Enabled := true;
                    Description := EmptyString |};
     RedactSpec := {| RedactName := redactorName;
                      RedactBody := RedactBody redactorSpec |} |}.

(** The loop of [splitRedactors] from index [idx] on; the result is the map
    and the number of clock readings, or the error. *)
Fixpoint splitLoop (idx : nat) (Redactors : list (option Redact)) (t : nat)
    (existingMap : gmap string string) : (gmap string string * nat) + string :=
  match Redactors with
  | [] => inl (existingMap, t)
  | None :: rest => splitLoop (S idx) rest t existingMap
  | Some redactorSpec :: rest =>
      let entry := newRedactor idx redactorSpec t in
      match Marshal entry with
      | None => inr ("unable to marshal redactor " +:+ redactorNameOf idx redactorSpec)
      | Some jsonBytes =>
          splitLoop (S idx) rest (S (S t)) (<[Slug (Metadata entry) := jsonBytes]> existingMap)
      end
  end.

(** [func splitRedactors(spec string, existingMap map[string]string)
    (map[string]string, error)].  The results are the map (nil is [None]),
    the error (nil is [None]) and the number of clock readings.  When the
    object is of another kind the code returns [errors.Wrap(err, ...)] with
    [err] nil, and that is nil: both results are nil. *)
Definition splitRedactors (spec : string) (existingMap : gmap string string) (t : nat)
  : option (gmap string string) * option string * nat :=
  match decode spec with
  | None => (None, Some "deserialize combined redact spec", t)
  | Some OtherKind => (None, None, t)
  | Some (IsRedactor Redactors) =>
      match splitLoop 0 Redactors t existingMap with
      | inr err => (None, Some err, t)
      | inl (existingMap, t) => (Some (delete legacyKey existingMap), None, t)
      end
  end.

(** The cluster as this package sees it: the [Data] of the ConfigMap
    [kotsadm-redact] of the pod's namespace when the object exists, and
    whether the API server can be reached and answers. *)
Record Cluster := mkCluster {
  configMap : option (gmap string string);
  reachable : bool
}.

(** [func getConfigmap()], which returns a ConfigMap, a message and an
    error; the ConfigMap is represented by its [Data]. *)
Definition getConfigmap (c : Cluster)
  : Cluster * (option (gmap string string) * string * option string) :=
  if reachable c then
    match configMap c with
    | Some data => (c, (Some data, EmptyString, None))
    | None =>
        ({| configMap := Some ∅; reachable := reachable c |},
         (Some ∅, EmptyString, None))
    end
  else (c, (None, "failed to get cluster config", Some "failed to get cluster config")).

(** [func writeConfigmap(configMap)], which returns the updated ConfigMap
    and an error. *)
Definition writeConfigmap (data : gmap string string) (c : Cluster)
  : Cluster * (option (gmap string string) * option string) :=
  if reachable c then
    ({| configMap := Some data; reachable := reachable c |}, (Some data, None))
  else (c, (None, Some "failed to get cluster config")).

(** The last loop of [GetRedactInfo] over the entries in the order [kvs]. *)
Fixpoint parseEntries (kvs : list (string * string)) (list_ : list RedactorList)
  : list RedactorList + string :=
  match kvs with
  | [] => inl list_
  | (k, v) :: rest =>
      match Unmarshal v with
      | None => inr ("unable to parse key " +:+ k)
      | Some redactorEntry => parseEntries rest (list_ ++ [Metadata redactorEntry])
      end
  end.

(** [func GetRedactInfo() ([]RedactorList, error)]: the cluster after the
    call, the list (nil is [None]), the error, and the clock readings. *)
Definition GetRedactInfo (c : Cluster) (t : nat)
  : Cluster * (option (list RedactorList) * option string) * nat :=
  let '(c, (configmap, _, err)) := getConfigmap c in
  match err, configmap with
  | Some _, _ => (c, (None, Some "get redactors configmap"), t)
  | None, None => (c, (None, None), t)
  | None, Some data =>
      let migrated :=
        match data !! legacyKey with
        | Some combinedYaml =>
            match splitRedactors combinedYaml data t with
            | (_, Some _, t) => inr ("failed to split combined redactors", c, t)
            | (newMap, None, t) =>
                let data := default ∅ newMap in
                match writeConfigmap data c with
                | (c, (_, Some _)) => inr ("failed to update configmap", c, t)
                | (c, (written, None)) => inl (default ∅ written, c, t)
                end
            end
        | None => inl (data, c, t)
        end in
      match migrated with
      | inr (msg, c, t) => (c, (None, Some msg), t)
      | inl (data, c, t) =>
          match parseEntries (map_to_list data) [] with
          | inr msg => (c, (None, Some msg), t)
          | inl list_ => (c, (Some list_, None), t)
          end
      end
  end.

(** The slugs of the rules that are not nil, in the order of the loop. *)
Fixpoint slugsFrom (idx : nat) (Redactors : list (option Redact)) : list string :=
  match Redactors with
  | [] => []
  | None :: rest => slugsFrom (S idx) rest
  | Some redactorSpec :: rest =>
      getSlug (redactorNameOf idx redactorSpec) :: slugsFrom (S idx) rest
  end.
End Redact.

(** A toy instance of the codecs, to run the model: the body of a rule is
    empty, the clock counts, an entry marshals to its name. *)
Definition rule_a : @Redact unit := {| RedactName := "a"; RedactBody := () |}.

Definition toy_decode (spec : string) : option (@decoded unit) :=
  if decide (spec = "two rules named a") then Some (IsRedactor [Some rule_a; Some rule_a])
  else None.

Definition toy_Marshal (e : @RedactorMetadata nat unit) : option string :=
  Some (Name (Metadata e)).

Definition toy_Unmarshal (s : string) : option (@RedactorMetadata nat unit) :=
  if decide (s = "a") then Some (newRedactor (λ n, n) 1 rule_a 2) else None.

(* ===================================================================== *)
(** * The other entry points                                             *)
(* ===================================================================== *)

(** A small renderer to run [ParseConfigGroup] with: an empty template
    renders to nothing; any other template is taken as one reference to the
    name it spells, made through the function [ConfigOption] of the table. *)
Definition refBuilder (Functs : gmap string TemplateFunc) (template : string) (g : depGraph)
  : depGraph * (string * option string) :=
  if decide (template = EmptyString) then (g, (EmptyString, None))
  else
    match Functs !! "ConfigOption" with
    | Some f => let '(g, s) := f template [] g in (g, (s, None))
    | None => (g, (EmptyString, Some "function not defined"))
    end.

Definition groups_A_B : list ConfigGroup :=
  [ {| Items := [ {| ItemName := "A"; Default := "1"; Value := EmptyString |} ] |};
    {| Items := [ {| ItemName := "B"; Default := "A"; Value := EmptyString |} ] |} ].

(** Whether every byte of a string is a letter, a digit, the underscore or
    the hyphen. *)
Fixpoint wordString (s : string) : bool :=
  match s with
  | EmptyString => true
  | String c rest => wordByte c && wordString rest
  end.

Section RedactStore.
Context {Time Body : Type}.
Variable decode : string → option (@decoded Body).
Variable Marshal : @RedactorMetadata Time Body → option string.
Variable Unmarshal : string → option (@RedactorMetadata Time Body).
Variable Now : nat → Time.
(** [yaml.Unmarshal(yamlBytes, &newRedactorSpec)] into a zero
    [v1beta1.Redact]: [None] is an error. *)
Variable ParseYaml : string → option (@Redact Body).

(** In the functions below an error is the message the function itself
    puts in front ([errors.Wrap]) or makes ([fmt.Errorf]); the error of
    [getConfigmap] is passed on as it is. *)

(** [func GetRedactBySlug(slug string)], which returns the entry and an
    error. *)
Definition GetRedactBySlug (slug : string) (c : Cluster)
  : Cluster * (option RedactorMetadata * option string) :=
  let '(c, (configmap, _, err)) := getConfigmap c in
  match err, configmap with
  | Some e, _ => (c, (None, Some e))
  | None, None => (c, (None, Some "configmap not found"))
  | None, Some data =>
      match data !! slug with
      | None => (c, (None, Some ("redactor " +:+ slug +:+ " not found")))
      | Some redactString =>
          match Unmarshal redactString with
          | None => (c, (None, Some ("unable to parse redactor " +:+ slug)))
          | Some redactorEntry => (c, (Some redactorEntry, None))
          end
      end
  end.

(** [func DeleteRedact(slug string) error].  [getConfigmap] returns a
    ConfigMap whenever it returns no error; deleting from its [Data] is
    allowed when that is nil. *)
Definition DeleteRedact (slug : string) (c : Cluster) : Cluster * option string :=
  let '(c, (configMap, _, err)) := getConfigmap c in
  match err with
  | Some e => (c, Some e)
  | None =>
      let data := delete slug (default ∅ configMap) in
      match writeConfigmap data c with
      | (c, (_, Some _)) => (c, Some "write configMap with updated redact")
      | (c, (_, None)) => (c, None)
      end
  end.

(** The first branch of [SetRedactYaml], taken when the slug is not in the
    map or a new redactor is asked for: the name and the slug are settled
    and the entry is created.  The result is the slug, the metadata so far
    (name, slug and creation time), the spec and the clock readings. *)
Definition createRedactor (name slug : string) (newRedactorSpec : @Redact Body)
    (data : gmap string string) (t : nat)
  : (string * (string * string * Time) * @Redact Body * nat) + string :=
  let settled : @Redact Body * string :=
    if decide (RedactName newRedactorSpec = EmptyString ∧ name = EmptyString) then
      ({| RedactName := slug; RedactBody := RedactBody newRedactorSpec |}, slug)
    else
      let newRedactorSpec :=
        if decide (name ≠ EmptyString)
        then {| RedactName := name; RedactBody := RedactBody newRedactorSpec |}
        else newRedactorSpec in
      (newRedactorSpec, getSlug (RedactName newRedactorSpec)) in
  let newRedactorSpec := settled.1 in
  let slug := settled.2 in
  match data !! slug with
  | Some _ =>
      inr ("refusing to create new redact spec with name "
           +:+ RedactName newRedactorSpec +:+ " - slug " +:+ slug +:+ " already exists")
  | None => inl (slug, (RedactName newRedactorSpec, slug, Now t), newRedactorSpec, S t)
  end.

(** The second branch of [SetRedactYaml], taken for a slug that is in the
    map when no new redactor is asked for: the stored entry is read, and
    renamed when the name has changed.  The result is the map, the slug,
    the metadata so far (name, slug and creation time) and the spec. *)
Definition updateRedactor (name slug redactString : string) (newRedactorSpec : @Redact Body)
    (data : gmap string string)
  : (gmap string string * string * (string * string * Time) * @Redact Body) + string :=
  match Unmarshal redactString with
  | None => inr ("unable to parse redactor " +:+ slug)
  | Some redactorEntry =>
      let newRedactorSpec :=
        if decide (name ≠ RedactName newRedactorSpec ∧ name ≠ EmptyString)
        then {| RedactName := name; RedactBody := RedactBody newRedactorSpec |}
        else newRedactorSpec in
      let meta := (Name (Metadata redactorEntry), Slug (Metadata redactorEntry),
                   Created (Metadata redactorEntry)) in
      let renamed :=
        if decide (slug ≠ getSlug (RedactName newRedactorSpec)
                   ∧ RedactName newRedactorSpec ≠ EmptyString) then
          match data !! getSlug (RedactName newRedactorSpec) with
          | Some _ =>
              inr ("refusing to change slug from " +:+ slug +:+ " to "
                   +:+ getSlug (RedactName newRedactorSpec) +:+ " as that already exists")
          | None =>
              inl (delete slug data, getSlug (RedactName newRedactorSpec),
                   (RedactName newRedactorSpec, getSlug (RedactName newRedactorSpec),
                    meta.2))
          end
        else inl (data, slug, meta) in
      match renamed with
      | inr msg => inr msg
      | inl (data, slug, meta) =>
          if decide (RedactName newRedactorSpec = EmptyString) then
            inl (data, slug, (slug, meta.1.2, meta.2),
                 {| RedactName := slug; RedactBody := RedactBody newRedactorSpec |})
          else inl (data, slug, meta, newRedactorSpec)
      end
  end.

(** [func SetRedactYaml(name, slug, description string, enabled, newRedact
    bool, yamlBytes []byte)], which returns the entry and an error. *)
Definition SetRedactYaml (name slug description : string) (enabled newRedact : bool)
    (yamlBytes : string) (c : Cluster) (t : nat)
  : Cluster * (option RedactorMetadata * option string) * nat :=
  match ParseYaml yamlBytes with
  | None => (c, (None, Some "unable to parse new redact yaml"), t)
  | Some newRedactorSpec =>
      let '(c, (configMap, _, err)) := getConfigmap c in
      match err with
      | Some e => (c, (None, Some e), t)
      | None =>
          let data := default ∅ configMap in
          let prepared :=
            match data !! slug with
            | Some redactString =>
                if newRedact then
                  match createRedactor name slug newRedactorSpec data t with
                  | inr msg => inr msg
                  | inl (slug, meta, spec, t) => inl (data, slug, meta, spec, t)
                  end
                else
                  match updateRedactor name slug redactString newRedactorSpec data with
                  | inr msg => inr msg
                  | inl (data, slug, meta, spec) => inl (data, slug, meta, spec, t)
                  end
            | None =>
                match createRedactor name slug newRedactorSpec data t with
                | inr msg => inr msg
                | inl (slug, meta, spec, t) => inl (data, slug, meta, spec, t)
                end
            end in
          match prepared with
          | inr msg => (c, (None, Some msg), t)
          | inl (data, slug, meta, spec, t) =>
              let redactorEntry :=
                {| Metadata := {| Name := meta.1.1;
                                  Slug := meta.1.2;
                                  Created := meta.2;
                                  Updated := Now t;
                                  Enabled := enabled;
                                  Description := description |};
                   RedactSpec := spec |} in
              match Marshal redactorEntry with
              | None => (c, (None, Some ("unable to marshal redactor " +:+ slug)), S t)
              | Some jsonBytes =>
                  match writeConfigmap (<[slug := jsonBytes]> data) c with
                  | (c, (_, Some _)) =>
                      (c, (None, Some "write configMap with updated redact"), S t)
                  | (c, (_, None)) => (c, (Some redactorEntry, None), S t)
                  end
              end
          end
      end
  end.

(** The loop of [buildFullRedact] over the entries in the order [kvs]; the
    result is [full.Spec.Redactors]. *)
Fixpoint buildLoop (kvs : list (string * string)) (Redactors : list (option Redact))
  : list (option Redact) + string :=
  match kvs with
  | [] => inl Redactors
  | (k, v) :: rest =>
      if decide (k = legacyKey) then
        match decode v with
        | None => inr "deserialize combined redact spec"
        | Some (IsRedactor combined) => buildLoop rest (Redactors ++ combined)
        | Some OtherKind => buildLoop rest Redactors
        end
      else
        match Unmarshal v with
        | None => inr ("unable to parse key " +:+ k)
        | Some redactorEntry =>
            if Enabled (Metadata redactorEntry)
            then buildLoop rest (Redactors ++ [Some (RedactSpec redactorEntry)])
            else buildLoop rest Redactors
        end
  end.

(** [func buildFullRedact(config)], which returns the full Redactor and an
    error, the map ranged over in the order [kvs]. *)
Definition buildFullRedact_in (kvs : list (string * string)) : list (option Redact) + string :=
  buildLoop kvs [].

Definition buildFullRedact (data : gmap string string) : list (option Redact) + string :=
  buildFullRedact_in (map_to_list data).

(** [func GetRedact()], which returns the full Redactor and an error. *)
Definition GetRedact (c : Cluster) : Cluster * (option (list (option Redact)) * option string) :=
  let '(c, (configmap, _, err)) := getConfigmap c in
  match err, configmap with
  | Some e, _ => (c, (None, Some e))
  | None, None => (c, (None, None))
  | None, Some data =>
      match buildFullRedact data with
      | inr msg => (c, (None, Some msg))
      | inl Redactors => (c, (Some Redactors, None))
      end
  end.

(** The name and the slug [SetRedactYaml] settles on when it creates an
    entry. *)
Definition createdName (name slug : string) (spec : @Redact Body) : string :=
  if decide (RedactName spec = EmptyString ∧ name = EmptyString) then slug
  else if decide (name ≠ EmptyString) then name else RedactName spec.

Definition createdSlug (name slug : string) (spec : @Redact Body) : string :=
  if decide (RedactName spec = EmptyString ∧ name = EmptyString) then slug
  else getSlug (createdName name slug spec).

(** The name [SetRedactYaml] settles on when it updates an entry. *)
Definition updatedName (name : string) (spec : @Redact Body) : string :=
  if decide (name ≠ RedactName spec ∧ name ≠ EmptyString) then name else RedactName spec.

(** What one entry of the map adds to the list [buildFullRedact] builds;
    [None] when the entry makes it fail. *)
Definition contribution (kv : string * string) : option (list (option (@Redact Body))) :=
  if decide (kv.1 = legacyKey) then
    match decode kv.2 with
    | None => None
    | Some (IsRedactor combined) => Some combined
    | Some OtherKind => Some []
    end
  else
    match Unmarshal kv.2 with
    | None => None
    | Some redactorEntry =>
        if Enabled (Metadata redactorEntry) then Some [Some (RedactSpec redactorEntry)]
        else Some []
    end.

(** Two results of [buildFullRedact] that differ at most in the order of
    the rules. *)
Definition same_rules (r1 r2 : list (option (@Redact Body)) + string) : Prop :=
  match r1, r2 with
  | inl rs1, inl rs2 => rs1 ≡ₚ rs2
  | inr _, inr _ => True
  | _, _ => False
  end.
End RedactStore.

(** More toy documents: two rules with different names, and a document of
    another kind. *)
Definition rule_b : @Redact unit := {| RedactName := "b"; RedactBody := () |}.

Definition toy_decode_ab (spec : string) : option (@decoded unit) :=
  Some (IsRedactor [Some rule_a; Some rule_b]).

Definition toy_decode_other (spec : string) : option (@decoded unit) := Some OtherKind.

(** A toy parser of the yaml of a rule: the text is the name. *)
Definition toy_ParseYaml (yamlBytes : string) : option (@Redact unit) :=
  Some {| RedactName := yamlBytes; RedactBody := () |}.

(** A toy parser of stored entries for the document with the rules "a"
    and "b", the clock standing still. *)
Definition toy_Unmarshal_ab (s : string) : option (@RedactorMetadata nat unit) :=
  if decide (s = "a") then Some (newRedactor (λ _, 0) 0 rule_a 0)
  else if decide (s = "b") then Some (newRedactor (λ _, 0) 1 rule_b 0)
  else None.

(* ===================================================================== *)
(** * Properties of the dependency graph                                 *)
(* ===================================================================== *)

(** ** What the methods do to the table *)

Lemma table_AddNode source d :
  table (AddNode source d) =
    match table d !! source with
    | Some _ => table d
    | None => <[source := ∅]> (table d)
    end.
Proof.
  unfold AddNode, table. destruct d as [[m|]]; simpl.
  - by destruct (m !! source).
  - by rewrite lookup_empty.
Qed.

Lemma table_AddDep source dep d :
  table (AddDep source dep d) =
    <[source := {[dep]} ∪ default ∅ (table d !! source)]> (table d).
Proof.
  unfold AddDep, AddNode, table. destruct d as [[m|]]; simpl.
  - destruct (m !! source) as [s|] eqn:E; simpl.
    + apply map_eq. intros k. destruct (decide (k = source)) as [->|].
      * by rewrite lookup_alter_eq, lookup_insert_eq, E.
      * by rewrite lookup_alter_ne, lookup_insert_ne.
    + apply map_eq. intros k. destruct (decide (k = source)) as [->|].
      * by rewrite lookup_alter_eq, !lookup_insert_eq.
      * by rewrite lookup_alter_ne, !lookup_insert_ne.
  - rewrite lookup_empty. simpl. apply map_eq. intros k.
    destruct (decide (k = source)) as [->|].
    + by rewrite lookup_alter_eq, !lookup_insert_eq.
    + by rewrite lookup_alter_ne, !lookup_insert_ne.
Qed.

Lemma table_ResolveDep x d :
  table (ResolveDep x d) = delete x ((λ s : gset string, s ∖ {[x]}) <$> table d).
Proof.
  unfold ResolveDep, table. destruct d as [[m|]]; simpl; [done|].
  by rewrite fmap_empty, delete_empty.
Qed.

Lemma lookup_table_ResolveDep x d k :
  table (ResolveDep x d) !! k =
    if decide (k = x) then None else (λ s : gset string, s ∖ {[x]}) <$> table d !! k.
Proof.
  rewrite table_ResolveDep. case_decide as E.
  - subst. apply lookup_delete_eq.
  - rewrite lookup_delete_ne by done. apply lookup_fmap.
Qed.

(** ** Enumerations *)

Lemma list_to_set_nil_inv (ks : list string) :
  list_to_set (C := gset string) ks = ∅ → ks = [].
Proof.
  destruct ks as [|k ks]; [done|]. simpl. intros E.
  assert (k ∈ (∅ : gset string)) by (rewrite <- E; set_solver). set_solver.
Qed.

Lemma visits_enum m : visits m (enum m).
Proof.
  unfold visits, enum. split.
  - rewrite <- list_fmap_compose.
    rewrite (list_fmap_ext _ id (map_to_list m)); [by rewrite list_fmap_id|].
    intros i [k s] _. simpl. f_equal. apply list_to_set_elements_L.
  - apply Forall_fmap, Forall_forall. intros [k s] _. simpl. apply NoDup_elements.
Qed.

Lemma visits_elem m e k ks :
  visits m e → (k, ks) ∈ e → m !! k = Some (list_to_set ks) ∧ NoDup ks.
Proof.
  intros [Hp Hn] Hin. split.
  - apply elem_of_map_to_list. rewrite <- Hp.
    apply (list_elem_of_fmap_2 (λ kv : string * list string, (kv.1, list_to_set kv.2)) _ _ Hin).
  - by apply (proj1 (Forall_forall _ _) Hn (k, ks)).
Qed.

Lemma visits_lookup m e k s :
  visits m e → m !! k = Some s → ∃ ks, (k, ks) ∈ e ∧ list_to_set ks = s ∧ NoDup ks.
Proof.
  intros [Hp Hn] Hk. apply elem_of_map_to_list in Hk. rewrite <- Hp in Hk.
  apply list_elem_of_fmap in Hk as ([k' ks] & E & Hin). simpl in E. simplify_eq.
  exists ks. split_and!; [done..|]. by apply (proj1 (Forall_forall _ _) Hn (k', ks)).
Qed.

Lemma visits_keys m e : visits m e → e.*1 ≡ₚ (map_to_list m).*1.
Proof.
  intros [Hp _]. rewrite <- Hp, <- list_fmap_compose. done.
Qed.

Lemma visits_NoDup_keys m e : visits m e → NoDup e.*1.
Proof.
  intros H. rewrite (visits_keys _ _ H). apply NoDup_fst_map_to_list.
Qed.

Lemma visits_length m e : visits m e → length e = size m.
Proof.
  intros [Hp _]. rewrite <- length_map_to_list, <- Hp. by rewrite length_fmap.
Qed.

Lemma visits_empty_inv m e : visits m e → e = [] ↔ m = ∅.
Proof.
  intros H. rewrite <- map_size_empty_iff, <- (visits_length _ _ H).
  by destruct e.
Qed.

Lemma elem_of_heads_in m e x :
  visits m e → x ∈ heads_in e ↔ m !! x = Some ∅.
Proof.
  intros Hv. unfold heads_in. rewrite list_elem_of_fmap. split.
  - intros ([k ks] & -> & Hin). apply list_elem_of_filter in Hin as [Hl Hin].
    simpl in *. apply nil_length_inv in Hl. subst.
    by destruct (visits_elem _ _ _ _ Hv Hin) as [-> _].
  - intros Hx. destruct (visits_lookup _ _ _ _ Hv Hx) as (ks & Hin & E & _).
    apply list_to_set_nil_inv in E. subst. exists (x, []). split; [done|].
    by apply list_elem_of_filter.
Qed.

Lemma NoDup_heads_in m e : visits m e → NoDup (heads_in e).
Proof.
  intros Hv. eapply sublist_NoDup; [apply (visits_NoDup_keys _ _ Hv)|].
  unfold heads_in. apply fmap_sublist, sublist_filter.
Qed.

Lemma GetHeadNodes_in_heads e1 e2 : (GetHeadNodes_in e1 e2).1 = heads_in e1.
Proof. unfold GetHeadNodes_in. by case_decide. Qed.

Lemma GetHeadNodes_in_err m e1 e2 :
  visits m e1 →
  (GetHeadNodes_in e1 e2).2 =
    if decide (m ≠ ∅ ∧ ∀ x s, m !! x = Some s → s ≠ ∅)
    then Some ("no config options exist with 0 dependencies - "
               +:+ Join (waitItem <$> e2) "; ")
    else None.
Proof.
  intros Hv. unfold GetHeadNodes_in.
  assert (length (heads_in e1) = 0 ↔ ∀ x s, m !! x = Some s → s ≠ ∅) as Hh.
  { split.
    - intros Hl x s Hx ->. apply nil_length_inv in Hl.
      apply (elem_of_heads_in _ _ _ Hv) in Hx. rewrite Hl in Hx. by apply elem_of_nil in Hx.
    - intros Hall. destruct (heads_in e1) as [|x l] eqn:E; [done|].
      assert (x ∈ heads_in e1) as Hx by (rewrite E; left).
      apply (elem_of_heads_in _ _ _ Hv) in Hx. by destruct (Hall _ _ Hx). }
  assert (length e1 ≠ 0 ↔ m ≠ ∅) as He.
  { rewrite <- (visits_empty_inv _ _ Hv). by destruct e1. }
  repeat case_decide; simpl; try done; tauto.
Qed.

Lemma GetHeadNodes_may_self d : GetHeadNodes_may d (GetHeadNodes d).
Proof. exists (enum (table d)), (enum (table d)). eauto using visits_enum. Qed.

(** ** GetHeadNodes *)

(** The two facts about a result of [GetHeadNodes] the other proofs use. *)
Lemma GetHeadNodes_may_inv d r :
  GetHeadNodes_may d r →
  (∀ x, x ∈ r.2.1 ↔ table d !! x = Some ∅)
  ∧ (is_Some r.2.2 ↔ table d ≠ ∅ ∧ ∀ x s, table d !! x = Some s → s ≠ ∅).
Proof.
  intros (e1 & e2 & Hv1 & Hv2 & ->). simpl.
  rewrite GetHeadNodes_in_heads, (GetHeadNodes_in_err _ _ _ Hv1). split.
  - intros x. by apply elem_of_heads_in.
  - case_decide as Hc.
    + split; [by intros _ | by eauto].
    + split; [by intros [? ?] | by intros Hc'].
Qed.




(** The message for the graph in which "A" depends on "B" and "C". *)
Example GetHeadNodes_message :
  (GetHeadNodes graph_A_BC).2 =
    ([], Some ("no config options exist with 0 dependencies - "
               +:+ Quote "A" +:+ " depends on " +:+ Quote "C" +:+ ", " +:+ Quote "B"))
  ∧ Quote "A" = String dquote (String "A" (String dquote EmptyString)).
Proof. split; vm_compute; reflexivity. Qed.

(** The two-item cycle: the error names both nodes with what they wait
    for, and both are still in the graph. *)
Example GetHeadNodes_cycle :
  GetHeadNodes graph_cycle =
    (graph_cycle,
     ([], Some ("no config options exist with 0 dependencies - "
                +:+ Quote "A" +:+ " depends on " +:+ Quote "B" +:+ "; "
                +:+ Quote "B" +:+ " depends on " +:+ Quote "A")))
  ∧ table graph_cycle !! "A" = Some {["B"]}
  ∧ table graph_cycle !! "B" = Some {["A"]}.
Proof. split_and!; vm_compute; reflexivity. Qed.

(** ** AddDep *)

Lemma AddDep_Some source dep d :
  AddDep source dep d = {| Dependencies := Some (table (AddDep source dep d)) |}.
Proof.
  unfold AddDep, AddNode, table. destruct d as [[m|]]; simpl.
  - by destruct (m !! source).
  - by rewrite lookup_empty.
Qed.

(** C7. Calling [AddDep] twice with the same pair leaves the graph that one
    call leaves: the dependency set of [source] is a set and holds
    [dep] once, and [GetHeadNodes] has the same results. *)
Theorem AddDep_idempotent source dep d :
  AddDep source dep (AddDep source dep d) = AddDep source dep d
  ∧ table (AddDep source dep d) !! source
      = Some ({[dep]} ∪ default ∅ (table d !! source))
  ∧ GetHeadNodes (AddDep source dep (AddDep source dep d))
      = GetHeadNodes (AddDep source dep d)
  ∧ ∀ r, GetHeadNodes_may (AddDep source dep (AddDep source dep d)) r
         ↔ GetHeadNodes_may (AddDep source dep d) r.
Proof.
  assert (AddDep source dep (AddDep source dep d) = AddDep source dep d) as E.
  { rewrite (AddDep_Some source dep (AddDep source dep d)).
    rewrite (AddDep_Some source dep d) at 2. do 2 f_equal.
    rewrite !table_AddDep, lookup_insert_eq. simpl.
    rewrite insert_insert_eq. f_equal. set_solver. }
  split_and!.
  - exact E.
  - by rewrite table_AddDep, lookup_insert_eq.
  - by rewrite E.
  - intros r. by rewrite E.
Qed.

(** ** ResolveDep *)




(** ** The recording function table *)

(** C5. In the table bound to [parent], each of the five functions, called
    with a name and any further arguments, calls [AddDep parent name] on
    the graph and does nothing else to it, and returns the name; the table
    has no other function. *)
Theorem funcMap_records parent :
  Forall (λ name,
            ∃ f, funcMap parent !! name = Some f
                 ∧ ∀ dep (extra : list string) d, f dep extra d = (AddDep parent dep d, dep))
         ["ConfigOption"; "ConfigOptionIndex"; "ConfigOptionData";
          "ConfigOptionEquals"; "ConfigOptionNotEquals"]
  ∧ dom (funcMap parent) = list_to_set
         ["ConfigOption"; "ConfigOptionIndex"; "ConfigOptionData";
          "ConfigOptionEquals"; "ConfigOptionNotEquals"].
Proof.
  split.
  - repeat constructor; eexists; (split; [unfold funcMap; simplify_map_eq; reflexivity|]);
      intros; reflexivity.
  - unfold funcMap. rewrite !dom_insert_L, dom_empty_L. simpl. set_solver.
Qed.

(** ** Sequences of calls *)

Lemma edge_AddNode m source d A B :
  m = table d → edge m A B → edge (table (AddNode source d)) A B.
Proof.
  intros -> (s & Hs & HB). rewrite table_AddNode.
  destruct (table d !! source) eqn:E; [by exists s|].
  exists s. split; [|done]. rewrite lookup_insert_ne; [done|]. congruence.
Qed.

Lemma edge_AddDep source dep d A B :
  edge (table d) A B → edge (table (AddDep source dep d)) A B.
Proof.
  intros (s & Hs & HB). rewrite table_AddDep.
  destruct (decide (source = A)) as [->|Hne].
  - rewrite Hs. simpl. eexists. rewrite lookup_insert_eq. split; [done|]. set_solver.
  - exists s. by rewrite lookup_insert_ne.
Qed.

Lemma edge_ResolveDep x d A B :
  edge (table d) A B → x ≠ A → x ≠ B → edge (table (ResolveDep x d)) A B.
Proof.
  intros (s & Hs & HB) HA HB'. exists (s ∖ {[x]}).
  rewrite lookup_table_ResolveDep. case_decide; [congruence|].
  rewrite Hs. split; [done|]. set_solver.
Qed.

(** An edge stays as long as its target is not resolved, when only head
    nodes are resolved. *)
Lemma edge_preserved cs : ∀ d A B,
  edge (table d) A B →
  resolves_heads_only d cs →
  A = B ∨ CallResolveDep B ∉ cs →
  edge (table (run cs d)) A B.
Proof.
  induction cs as [|c cs IH]; intros d A B He Hd Hn; [done|].
  destruct Hd as [Hc Hd]. unfold run. simpl. apply IH; [|done|].
  - destruct c as [s|s t|x]; simpl.
    + by eapply edge_AddNode.
    + by apply edge_AddDep.
    + destruct He as (s & Hs & HB).
      assert (x ≠ A) as HA.
      { intros ->. rewrite Hs in Hc. simplify_eq. set_solver. }
      apply edge_ResolveDep; [by exists s|done|].
      destruct Hn as [->|Hn]; [done|]. intros ->. apply Hn. left.
  - destruct Hn as [->|Hn]; [by left|]. right. intros Hin. apply Hn. by right.
Qed.

Lemma edge_not_head d A B r :
  edge (table d) A B → GetHeadNodes_may d r → A ∉ r.2.1.
Proof.
  intros (s & Hs & HB) Hr Hin.
  destruct (GetHeadNodes_may_inv _ _ Hr) as (Hh & _).
  apply Hh in Hin. rewrite Hs in Hin. simplify_eq. set_solver.
Qed.

Lemma not_node_not_head d A r :
  table d !! A = None → GetHeadNodes_may d r → A ∉ r.2.1.
Proof.
  intros Hs Hr Hin.
  destruct (GetHeadNodes_may_inv _ _ Hr) as (Hh & _).
  apply Hh in Hin. congruence.
Qed.

Lemma blocked_ResolveDeps xs : ∀ d A B,
  B ∉ xs →
  table d !! A = None ∨ edge (table d) A B →
  table (ResolveDeps xs d) !! A = None
  ∨ edge (table (ResolveDeps xs d)) A B.
Proof.
  induction xs as [|x xs IH]; intros d A B Hn H; [done|].
  simpl. apply IH; [set_solver|].
  destruct H as [H|H].
  - left. rewrite lookup_table_ResolveDep. case_decide; [done|]. by rewrite H.
  - destruct (decide (x = A)) as [->|HA].
    + left. rewrite lookup_table_ResolveDep. by case_decide.
    + right. apply edge_ResolveDep; [done..|]. set_solver.
Qed.

(** C2. When the graph has an edge from A to B, A is not returned by
    [GetHeadNodes] before [ResolveDep B] has been called: not after any
    sequence of [ResolveDep] calls on other names, and not after any
    sequence of calls of the three mutating methods that resolves head
    nodes only and does not resolve B.  In particular A and B are never
    returned together, so B is resolved in an earlier batch than A. *)
Theorem dependency_resolved_first d A B :
  edge (table d) A B →
  (∀ xs r, B ∉ xs →
     GetHeadNodes_may (ResolveDeps xs d) r → A ∉ r.2.1)
  ∧ (∀ cs r, resolves_heads_only d cs → CallResolveDep B ∉ cs →
       GetHeadNodes_may (run cs d) r → A ∉ r.2.1)
  ∧ (∀ r, GetHeadNodes_may d r → ¬ (A ∈ r.2.1 ∧ B ∈ r.2.1)).
Proof.
  intros He. split_and!.
  - intros xs r Hn Hr.
    destruct (blocked_ResolveDeps xs d A B Hn (or_intror He)) as [H|H].
    + by eapply not_node_not_head.
    + by eapply edge_not_head.
  - intros cs r Hd Hn Hr. eapply edge_not_head; [|done].
    apply edge_preserved; eauto.
  - intros r Hr [HA _]. by eapply edge_not_head.
Qed.

Lemma dependency_resolved_first_witness :
  let d := AddDep "A" "B" (AddNode "B" (AddNode "C" emptyGraph)) in
  edge (table d) "A" "B"
  ∧ "A" ∉ (GetHeadNodes (ResolveDep "C" d)).2.1.
Proof.
  intros d.
  assert (edge (table d) "A" "B") as He.
  { exists {["B"]}. split; [vm_compute; reflexivity | set_solver]. }
  split; [exact He|].
  destruct (dependency_resolved_first d "A" "B" He) as (H & _ & _).
  apply (H ["C"]); [|apply GetHeadNodes_may_self].
  intros Hin. apply list_elem_of_singleton in Hin. discriminate.
Defined.

(** ** Self-dependencies *)

Lemma visits_singleton (x : string) (s : gset string) e :
  visits {[x := s]} e → ∃ ks, e = [(x, ks)] ∧ list_to_set ks = s ∧ NoDup ks.
Proof.
  intros Hv. pose proof (visits_length _ _ Hv) as Hl.
  rewrite map_size_singleton in Hl.
  destruct e as [|[k ks] [|? ?]]; simplify_eq/=.
  assert ((k, ks) ∈ [(k, ks)]) as Hin by left.
  destruct (visits_elem _ _ _ _ Hv Hin) as [Hk Hn].
  apply lookup_singleton_Some in Hk as [-> ->]. eauto.
Qed.

Lemma list_to_set_singleton_inv (x : string) ks :
  list_to_set (C := gset string) ks = {[x]} → NoDup ks → ks = [x].
Proof.
  intros E Hn.
  assert (ks ≡ₚ [x]) as Hp.
  { apply NoDup_Permutation; [done|apply NoDup_singleton|].
    intros y. split.
    - intros Hy. apply (elem_of_list_to_set (C := gset string)) in Hy.
      rewrite E in Hy. set_solver.
    - intros Hy. apply (elem_of_list_to_set (C := gset string)).
      rewrite E. set_solver. }
  by apply Permutation_singleton_r in Hp.
Qed.



(** ** Graphs without cycles have a head node *)

Lemma chain_tc m l : ∀ x y, chain m x l → y ∈ l → tc (edge m) x y.
Proof.
  induction l as [|z l IH]; intros x y Hc Hy; [by apply elem_of_nil in Hy|].
  destruct Hc as [He Hc]. apply elem_of_cons in Hy as [->|Hy].
  - by apply tc_once.
  - eapply tc_l; [exact He|]. by apply IH.
Qed.

Lemma chain_repeats m l : ∀ x, chain m x l → ¬ NoDup (x :: l) → ∃ z, tc (edge m) z z.
Proof.
  induction l as [|y l IH]; intros x Hc Hn.
  - destruct Hn. apply NoDup_singleton.
  - destruct (decide (x ∈ y :: l)) as [Hin|Hout].
    + exists x. by eapply chain_tc.
    + destruct Hc as [_ Hc]. apply (IH y Hc). intros Hl. apply Hn.
      by apply NoDup_cons.
Qed.

Lemma chain_exists m :
  closed m → (∀ k s, m !! k = Some s → s ≠ ∅) →
  ∀ n x, is_Some (m !! x) →
    ∃ l, length l = n ∧ chain m x l ∧ ∀ y, y ∈ l → is_Some (m !! y).
Proof.
  intros Hcl Hne. induction n as [|n IH]; intros x [s Hs].
  - exists []. split_and!; [done..|]. intros y Hy. by apply elem_of_nil in Hy.
  - destruct (set_choose_L s (Hne _ _ Hs)) as [y Hy].
    assert (edge m x y) as He by (by exists s).
    destruct (IH y (Hcl _ _ He)) as (l & Hl & Hc & Hall).
    exists (y :: l). split_and!; [by rewrite <- Hl|done|].
    intros z Hz. apply elem_of_cons in Hz as [->|Hz]; [by apply (Hcl x)|by apply Hall].
Qed.

Lemma exists_head m :
  m ≠ ∅ → closed m → acyclic m → ∃ k, m !! k = Some ∅.
Proof.
  intros Hm Hcl Hac.
  destruct (heads_in (enum m)) as [|k hs] eqn:E.
  - exfalso.
    assert (∀ k s, m !! k = Some s → s ≠ ∅) as Hne.
    { intros k s Hk ->. apply (elem_of_heads_in _ _ _ (visits_enum m)) in Hk.
      rewrite E in Hk. by apply elem_of_nil in Hk. }
    destruct (map_choose _ Hm) as (x & s & Hx).
    destruct (chain_exists m Hcl Hne (size m) x (ltac:(eauto))) as (l & Hl & Hc & Hall).
    destruct (chain_repeats m l x Hc) as [z Hz]; [|by apply (Hac z)].
    intros Hn.
    assert (length (x :: l) ≤ length (elements (dom m))) as Hle.
    { apply submseteq_length, NoDup_submseteq; [done|].
      intros y Hy. apply elem_of_elements, elem_of_dom.
      apply elem_of_cons in Hy as [->|Hy]; [eauto|by apply Hall]. }
    change (length (elements (dom m))) with (size (dom m)) in Hle.
    rewrite size_dom in Hle. simpl in Hle. lia.
  - exists k. apply (elem_of_heads_in _ (enum m)); [apply visits_enum|].
    rewrite E. left.
Qed.

(** ** Resolving a batch of nodes *)

Lemma lookup_table_ResolveDeps xs : ∀ d k,
  table (ResolveDeps xs d) !! k =
    if decide (k ∈ xs) then None
    else (λ s : gset string, s ∖ list_to_set xs) <$> table d !! k.
Proof.
  induction xs as [|x xs IH]; intros d k.
  - case_decide as H; [by apply elem_of_nil in H|]. unfold ResolveDeps. simpl.
    destruct (table d !! k); simpl; [|done]. f_equal. set_solver.
  - change (ResolveDeps (x :: xs) d) with (ResolveDeps xs (ResolveDep x d)).
    rewrite IH, lookup_table_ResolveDep.
    destruct (decide (k ∈ xs)) as [Hin|Hout].
    + case_decide as H; [done|]. destruct H. by right.
    + destruct (decide (k = x)) as [->|Hne].
      * case_decide as H; [done|]. destruct H. left.
      * case_decide as H; [by apply elem_of_cons in H as [?|?]|].
        destruct (table d !! k); simpl; [|done]. f_equal. set_solver.
Qed.

Lemma dom_table_ResolveDeps xs d :
  dom (table (ResolveDeps xs d)) = dom (table d) ∖ list_to_set xs.
Proof.
  apply set_eq. intros k. rewrite elem_of_difference, !elem_of_dom.
  rewrite lookup_table_ResolveDeps, elem_of_list_to_set.
  case_decide as Hk.
  - split; [by intros [? ?]|]. by intros [_ Hn].
  - rewrite fmap_is_Some. tauto.
Qed.

Lemma edge_ResolveDep_inv x d a b :
  edge (table (ResolveDep x d)) a b → edge (table d) a b ∧ a ≠ x ∧ b ≠ x.
Proof.
  intros (s & Hs & Hb). rewrite lookup_table_ResolveDep in Hs.
  case_decide; [done|]. destruct (table d !! a) as [s'|] eqn:E; simplify_eq/=.
  split_and!; [exists s'|done|]; set_solver.
Qed.

Lemma closed_ResolveDep x d : closed (table d) → closed (table (ResolveDep x d)).
Proof.
  intros Hcl a b He. destruct (edge_ResolveDep_inv _ _ _ _ He) as (He' & _ & Hb).
  rewrite lookup_table_ResolveDep, decide_False by done.
  apply fmap_is_Some. by apply (Hcl a).
Qed.

Lemma tc_edge_ResolveDep x d a b :
  tc (edge (table (ResolveDep x d))) a b → tc (edge (table d)) a b.
Proof.
  induction 1 as [a b He|a b c He _ IH].
  - apply tc_once. by apply edge_ResolveDep_inv in He as [? _].
  - eapply tc_l; [|exact IH]. by apply edge_ResolveDep_inv in He as [? _].
Qed.

Lemma acyclic_ResolveDep x d : acyclic (table d) → acyclic (table (ResolveDep x d)).
Proof. intros Hac y Hy. apply (Hac y). by eapply tc_edge_ResolveDep. Qed.

Lemma invariants_ResolveDeps xs : ∀ d,
  closed (table d) → acyclic (table d) →
  closed (table (ResolveDeps xs d)) ∧ acyclic (table (ResolveDeps xs d)).
Proof.
  induction xs as [|x xs IH]; intros d Hcl Hac; [done|].
  simpl. apply IH; [by apply closed_ResolveDep | by apply acyclic_ResolveDep].
Qed.

Lemma elem_of_keys (m : gmap string (gset string)) x :
  x ∈ (map_to_list m).*1 ↔ is_Some (m !! x).
Proof.
  split.
  - intros ([k s] & -> & Hin)%list_elem_of_fmap.
    apply elem_of_map_to_list in Hin. eauto.
  - intros [s Hs]. apply list_elem_of_fmap. exists (x, s).
    split; [done|]. by apply elem_of_map_to_list.
Qed.

(** ** The resolution loop *)

Lemma valid_pick_enum : valid_pick pick_enum.
Proof. intros m. split; apply visits_enum. Qed.

Section ResolutionFacts.
Context {V : Type} (render : list (string * V) → string → V).
Context (pick : gmap string (gset string) → enumeration * enumeration).
Hypothesis pick_ok : valid_pick pick.

Lemma store_values_keys (heads : list string) : ∀ values : list (string * V),
  (foldl (λ vs node, vs ++ [(node, render vs node)]) values heads).*1
  = values.*1 ++ heads.
Proof.
  induction heads as [|h heads IH]; intros values; simpl.
  - by rewrite app_nil_r.
  - rewrite IH, fmap_app. simpl. by rewrite <- app_assoc.
Qed.

Lemma iteration_ok d values :
  table d ≠ ∅ → closed (table d) → acyclic (table d) →
  ∃ d' values' heads,
    iteration render pick d values = inl (d', values', heads)
    ∧ heads ≠ [] ∧ NoDup heads
    ∧ (∀ x, x ∈ heads ↔ table d !! x = Some ∅)
    ∧ d' = ResolveDeps heads d
    ∧ values'.*1 = values.*1 ++ heads.
Proof.
  intros Hne Hcl Hac. unfold iteration.
  destruct (pick_ok (table d)) as [Hv1 Hv2].
  destruct (pick (table d)) as [e1 e2]. simpl in *.
  destruct (exists_head _ Hne Hcl Hac) as [k Hk].
  pose proof (GetHeadNodes_in_heads e1 e2) as Hh.
  pose proof (GetHeadNodes_in_err _ e1 e2 Hv1) as He.
  destruct (GetHeadNodes_in e1 e2) as [heads err]. simpl in *. subst heads.
  rewrite decide_False in He.
  2:{ intros [_ Hall]. by apply (Hall _ _ Hk). }
  subst err. eexists _, _, _. split_and!; [reflexivity|..].
  - intros E. apply (elem_of_heads_in _ _ _ Hv1) in Hk. rewrite E in Hk.
    by apply elem_of_nil in Hk.
  - by eapply NoDup_heads_in.
  - intros x. by apply elem_of_heads_in.
  - done.
  - apply store_values_keys.
Qed.

Lemma resolve_done fuel : ∀ d values iters,
  size (table d) ≤ fuel → closed (table d) → acyclic (table d) →
  ∃ vals it,
    resolve render pick fuel d values iters = Done vals it
    ∧ it ≤ iters + size (table d)
    ∧ vals.*1 ≡ₚ values.*1 ++ (map_to_list (table d)).*1.
Proof.
  induction fuel as [|fuel IH]; intros d values iters Hsz Hcl Hac.
  - assert (table d = ∅) as E by (apply map_size_empty_iff; lia).
    exists values, iters. simpl. rewrite decide_True by done.
    split_and!; [done|lia|]. by rewrite E, map_to_list_empty, app_nil_r.
  - simpl. case_decide as E.
    + exists values, iters. split_and!; [done|lia|].
      by rewrite E, map_to_list_empty, app_nil_r.
    + destruct (iteration_ok d values E Hcl Hac)
        as (d' & values' & heads & -> & Hne & Hnd & Hh & -> & Hk).
      destruct (invariants_ResolveDeps heads d Hcl Hac) as [Hcl' Hac'].
      assert (dom (table (ResolveDeps heads d)) ⊂ dom (table d)) as Hsub.
      { rewrite dom_table_ResolveDeps. destruct heads as [|h heads]; [done|].
        assert (h ∈ dom (table d)).
        { apply elem_of_dom. exists ∅. apply Hh. left. }
        set_solver. }
      apply subset_size in Hsub. rewrite !size_dom in Hsub.
      destruct (IH (ResolveDeps heads d) values' (S iters)) as (vals & it & -> & Hit & Hp);
        [lia|done..|].
      exists vals, it. split_and!; [done|lia|].
      rewrite Hp, Hk, <- app_assoc. apply Permutation_app_head.
      apply NoDup_Permutation.
      * apply NoDup_app. split_and!; [done| |apply NoDup_fst_map_to_list].
        intros x Hx Hx'. apply elem_of_keys in Hx' as [s Hs].
        rewrite lookup_table_ResolveDeps, decide_True in Hs; done.
      * apply NoDup_fst_map_to_list.
      * intros x. rewrite elem_of_app, !elem_of_keys, lookup_table_ResolveDeps.
        destruct (decide (x ∈ heads)) as [Hx|Hx].
        -- split; [|by left]. intros _. exists ∅. by apply Hh.
        -- rewrite fmap_is_Some. tauto.
Qed.
End ResolutionFacts.

Lemma tc_edge_source m x y : tc (edge m) x y → ∃ z, edge m x z.
Proof. destruct 1; eauto. Qed.




(* ===================================================================== *)
(** * Properties of the graph on the heap                                *)
(* ===================================================================== *)

Lemma view_nil h d : Store.Dependencies d = None → view h d = {| Dependencies := None |}.
Proof. unfold view. by intros ->. Qed.

Lemma view_ref h o m :
  Store.outer h !! o = Some m →
  view h (Store.mkDepGraph (Some o)) = {| Dependencies := Some (content h <$> m) |}.
Proof. unfold view. simpl. by intros ->. Qed.

Lemma elem_of_inner_of h o m l :
  Store.outer h !! o = Some m →
  l ∈ Store.inner_of h (Store.mkDepGraph (Some o)) ↔ ∃ k, m !! k = Some l.
Proof.
  intros Ho. unfold Store.inner_of. simpl. rewrite Ho.
  rewrite elem_of_list_to_set, list_elem_of_fmap. split.
  - intros ([k l'] & -> & Hin). exists k. by apply elem_of_map_to_list.
  - intros [k Hk]. exists (k, l). split; [done|]. by apply elem_of_map_to_list.
Qed.

Lemma inner_of_nil h d : Store.Dependencies d = None → Store.inner_of h d = ∅.
Proof. unfold Store.inner_of. by intros ->. Qed.

Lemma fresh_outer h : Store.outer h !! fresh (dom (Store.outer h)) = None.
Proof. apply not_elem_of_dom, is_fresh. Qed.

Lemma fresh_inner h : Store.inner h !! fresh (dom (Store.inner h)) = None.
Proof. apply not_elem_of_dom, is_fresh. Qed.

Lemma content_fmap_ext h h' (m : gmap string Store.loc) :
  (∀ k l, m !! k = Some l → Store.inner h' !! l = Store.inner h !! l) →
  content h' <$> m = content h <$> m.
Proof.
  intros H. apply map_fmap_ext. intros k l Hk. unfold content. by rewrite (H k l Hk).
Qed.

Lemma AddNode_ok source h d :
  Store.wf h d → step_ok h d (Store.AddNode source h d) (AddNode source (view h d)).
Proof.
  intros Hwf. destruct d as [[o|]].
  - destruct (Hwf o eq_refl) as (m & Ho & Hin & Hinj).
    unfold Store.AddNode. simpl. rewrite Ho.
    rewrite (view_ref h o m Ho). unfold AddNode. simpl.
    rewrite lookup_fmap.
    destruct (m !! source) as [l|] eqn:Hs; simpl.
    + split_and!; simpl; try done.
      * by apply view_ref.
      * intros o' Ho'. by left.
      * intros l' Hl'. by left.
    + set (l := fresh (dom (Store.inner h))).
      assert (Store.inner h !! l = None) as Hl by apply fresh_inner.
      assert (∀ k l', m !! k = Some l' → l' ≠ l) as Hne.
      { intros k l' Hk ->. destruct (Hin _ _ Hk) as [? ?]. congruence. }
      split_and!; simpl.
      * intros o' [= <-]. exists (<[source := l]> m). simpl.
        rewrite lookup_insert_eq. split_and!; [done|..].
        -- intros k l' [[<- <-]|[_ Hk]]%lookup_insert_Some.
           ++ rewrite lookup_insert_eq. eauto.
           ++ rewrite lookup_insert_ne by (symmetry; eauto). eauto.
        -- intros k1 k2 l' H1 H2.
           apply lookup_insert_Some in H1 as [[<- <-]|[N1 H1]];
             apply lookup_insert_Some in H2 as [[<- E]|[N2 H2]].
           ++ done.
           ++ by destruct (Hne _ _ H2).
           ++ subst. by destruct (Hne _ _ H1).
           ++ eauto.
      * erewrite view_ref; [|simpl; apply lookup_insert_eq].
        do 2 f_equal. rewrite fmap_insert. f_equal.
        -- unfold content. simpl. by rewrite lookup_insert_eq.
        -- apply map_fmap_ext. intros k l' Hk. unfold content. simpl.
           rewrite lookup_insert_ne; [done|]. symmetry. eauto.
      * intros o' _ Ho'. rewrite lookup_insert_ne; [done|].
        unfold Store.outer_of in Ho'. simpl in Ho'. set_solver.
      * intros l' Hdom _. rewrite lookup_insert_ne; [done|].
        intros <-. apply elem_of_dom in Hdom as [? ?]. congruence.
      * intros o' Ho'. by left.
      * intros l' Hl'.
        rewrite (elem_of_inner_of _ o (<[source := l]> m) l') in Hl'
          by (simpl; apply lookup_insert_eq).
        destruct Hl' as [k [[<- <-]|[_ Hk]]%lookup_insert_Some].
        -- right. by apply not_elem_of_dom.
        -- left. apply (elem_of_inner_of h o m l' Ho). eauto.
  - unfold Store.AddNode. simpl.
    set (o := fresh (dom (Store.outer h))).
    set (l := fresh (dom (Store.inner h))).
    rewrite lookup_insert_eq, lookup_empty. simpl.
    assert (Store.outer h !! o = None) as Ho by apply fresh_outer.
    assert (Store.inner h !! l = None) as Hl by apply fresh_inner.
    rewrite view_nil by done. unfold AddNode. simpl. rewrite lookup_empty.
    split_and!; simpl.
    + intros o' [= <-]. exists {[source := l]}. simpl.
      rewrite lookup_insert_eq. rewrite insert_empty. split_and!; [done|..].
      * intros k l' [<- <-]%lookup_singleton_Some. rewrite lookup_insert_eq. eauto.
      * intros k1 k2 l' [<- <-]%lookup_singleton_Some [<- _]%lookup_singleton_Some. done.
    + erewrite view_ref; [|simpl; apply lookup_insert_eq].
      do 2 f_equal. rewrite fmap_insert, fmap_empty. f_equal.
      unfold content. simpl. by rewrite lookup_insert_eq.
    + intros o' Hdom _. rewrite !lookup_insert_ne; [done|..];
        intros <-; apply elem_of_dom in Hdom as [? ?]; congruence.
    + intros l' Hdom _. rewrite lookup_insert_ne; [done|].
      intros <-. apply elem_of_dom in Hdom as [? ?]. congruence.
    + intros o' Ho'. right. unfold Store.outer_of in Ho'. simpl in Ho'.
      apply elem_of_singleton in Ho' as ->. by apply not_elem_of_dom.
    + intros l' Hl'.
      rewrite (elem_of_inner_of _ o (<[source := l]> ∅) l') in Hl'
        by (simpl; apply lookup_insert_eq).
      destruct Hl' as [k [[<- <-]|[_ Hk]]%lookup_insert_Some]; [|done].
      right. by apply not_elem_of_dom.
Qed.

Lemma AddNode_has source d :
  ∃ mv, AddNode source d = {| Dependencies := Some mv |} ∧ is_Some (mv !! source).
Proof.
  unfold AddNode. destruct d as [[m|]]; simpl.
  - destruct (m !! source) eqn:E; eexists; (split; [done|]).
    + by rewrite E.
    + by rewrite lookup_insert_eq.
  - rewrite lookup_empty. eexists. split; [done|]. by rewrite lookup_insert_eq.
Qed.

Lemma AddDep_ok source dep h d :
  Store.wf h d →
  step_ok h d (Store.AddDep source dep h d) (AddDep source dep (view h d)).
Proof.
  intros Hwf. pose proof (AddNode_ok source h d Hwf) as H1.
  unfold Store.AddDep, AddDep.
  destruct (Store.AddNode source h d) as [h1 d1].
  destruct H1 as (Hwf1 & Hv1 & Hfo & Hfi & Hno & Hni). simpl in *.
  destruct (AddNode_has source (view h d)) as (mv & Emv & [sv Hsv]).
  rewrite Emv in *. simpl.
  destruct d1 as [[o|]]; [|by rewrite view_nil in Hv1].
  destruct (Hwf1 o eq_refl) as (m & Ho & Hin & Hinj).
  rewrite (view_ref _ _ _ Ho) in Hv1. injection Hv1 as <-.
  rewrite lookup_fmap in Hsv. simpl. rewrite Ho. simpl.
  destruct (m !! source) as [l|] eqn:Hl; [|done]. simpl in *.
  set (g := λ depMap : gset string, {[dep]} ∪ depMap).
  split_and!; simpl.
  - intros o' [= <-]. exists m. simpl. split_and!; [done| |done].
    intros k l' Hk. rewrite lookup_alter. case_decide; [|by eauto].
    apply fmap_is_Some. subst. eauto.
  - erewrite view_ref; [|exact Ho]. do 2 f_equal.
    apply map_eq. intros k. rewrite lookup_fmap.
    destruct (decide (k = source)) as [->|Hne].
    + rewrite lookup_alter_eq, lookup_fmap, Hl. simpl. f_equal.
      unfold content. simpl. rewrite lookup_alter_eq.
      destruct (Hin _ _ Hl) as [s ->]. done.
    + rewrite lookup_alter_ne, lookup_fmap by done.
      destruct (m !! k) as [l'|] eqn:Hk; simpl; [|done]. f_equal.
      unfold content. simpl. rewrite lookup_alter_ne; [done|].
      intros <-. apply Hne. by apply (Hinj _ _ _ Hk Hl).
  - exact Hfo.
  - intros l' Hdom Hout. rewrite lookup_alter_ne; [by apply Hfi|].
    intros <-.
    destruct (Hni l) as [?|?]; [|done..].
    apply (elem_of_inner_of h1 o m l Ho). eauto.
  - exact Hno.
  - intros l' Hl'. apply Hni.
    apply (elem_of_inner_of h1 o m l' Ho).
    by apply (elem_of_inner_of _ o m l') in Hl'.
Qed.

Lemma lookup_foldr_remove x (ls : list Store.loc) (inn : gmap Store.loc (gset string)) l :
  foldr (λ l, alter (λ depMap : gset string, depMap ∖ {[x]}) l) inn ls !! l =
    if decide (l ∈ ls) then (λ s : gset string, s ∖ {[x]}) <$> inn !! l else inn !! l.
Proof.
  induction ls as [|l0 ls IH]; cbn [foldr].
  - by rewrite decide_False by apply not_elem_of_nil.
  - destruct (decide (l0 = l)) as [->|Hne].
    + rewrite lookup_alter_eq, IH.
      rewrite (decide_True (P := l ∈ l :: ls)) by apply list_elem_of_here.
      destruct (decide (l ∈ ls)); [|done].
      destruct (inn !! l); simpl; [|done]. f_equal. set_solver.
    + rewrite lookup_alter_ne, IH by done.
      destruct (decide (l ∈ ls)) as [Hin|Hout].
      * rewrite (decide_True (P := l ∈ l0 :: ls)); [done|by apply list_elem_of_further].
      * rewrite (decide_False (P := l ∈ l0 :: ls)); [done|].
        intros [?|?]%elem_of_cons; [congruence|done].
Qed.

Lemma ResolveDep_ok x h d :
  Store.wf h d →
  step_ok h d (Store.ResolveDep x h d) (ResolveDep x (view h d)).
Proof.
  intros Hwf. destruct d as [[o|]].
  - destruct (Hwf o eq_refl) as (m & Ho & Hin & Hinj).
    unfold Store.ResolveDep. simpl. rewrite Ho.
    rewrite (view_ref h o m Ho). unfold ResolveDep. simpl.
    assert (∀ k l, m !! k = Some l → l ∈ (map_to_list m).*2) as Hrange.
    { intros k l Hk. apply list_elem_of_fmap. exists (k, l). split; [done|].
      by apply elem_of_map_to_list. }
    split_and!; simpl.
    + intros o' [= <-]. exists (delete x m). simpl. rewrite lookup_insert_eq.
      split_and!; [done|..].
      * intros k l [_ Hk]%lookup_delete_Some. rewrite lookup_foldr_remove.
        case_decide; [apply fmap_is_Some|]; eauto.
      * intros k1 k2 l [_ H1]%lookup_delete_Some [_ H2]%lookup_delete_Some. eauto.
    + erewrite view_ref; [|simpl; apply lookup_insert_eq]. do 2 f_equal.
      apply map_eq. intros k. rewrite lookup_fmap.
      destruct (decide (k = x)) as [->|Hne]; [by rewrite !lookup_delete_eq|].
      rewrite !lookup_delete_ne, !lookup_fmap by done.
      destruct (m !! k) as [l|] eqn:Hk; simpl; [|done]. f_equal.
      unfold content. simpl. rewrite lookup_foldr_remove.
      rewrite decide_True by eauto. destruct (Hin _ _ Hk) as [s ->]. done.
    + intros o' _ Ho'. rewrite lookup_insert_ne; [done|].
      unfold Store.outer_of in Ho'. simpl in Ho'. set_solver.
    + intros l Hdom Hout. rewrite lookup_foldr_remove.
      case_decide as H; [|done]. destruct Hout.
      apply list_elem_of_fmap in H as ([k l'] & -> & H).
      apply elem_of_map_to_list in H.
      apply (elem_of_inner_of h o m l' Ho). eauto.
    + intros o' Ho'. by left.
    + intros l Hl. left.
      apply (elem_of_inner_of _ o (delete x m) l) in Hl; [|simpl; apply lookup_insert_eq].
      destruct Hl as [k [_ Hk]%lookup_delete_Some].
      apply (elem_of_inner_of h o m l Ho). eauto.
  - unfold Store.ResolveDep. simpl. rewrite view_nil by done.
    unfold ResolveDep. simpl.
    split_and!; simpl; try done.
Qed.

Lemma exec_ok c h d :
  Store.wf h d → step_ok h d (Store.exec c h d) (exec c (view h d)).
Proof.
  intros Hwf. destruct c; simpl.
  - by apply AddNode_ok.
  - by apply AddDep_ok.
  - by apply ResolveDep_ok.
Qed.

(** ** Two graphs on one heap *)

Lemma wf_reaches h c :
  Store.wf h c →
  (∀ o, o ∈ Store.outer_of c → o ∈ dom (Store.outer h))
  ∧ (∀ l, l ∈ Store.inner_of h c → l ∈ dom (Store.inner h)).
Proof.
  intros Hwf. destruct c as [[o|]].
  - destruct (Hwf o eq_refl) as (m & Ho & Hin & _). split.
    + intros o' Ho'. unfold Store.outer_of in Ho'. simpl in Ho'.
      apply elem_of_singleton in Ho' as ->. apply elem_of_dom. eauto.
    + intros l [k Hk]%(elem_of_inner_of h o m l Ho). apply elem_of_dom. eauto.
  - split.
    + intros o' Ho'. by apply not_elem_of_empty in Ho'.
    + intros l Hl. rewrite inner_of_nil in Hl by done. by apply not_elem_of_empty in Hl.
Qed.

Lemma frame_other h h' c :
  Store.wf h c →
  (∀ o, o ∈ Store.outer_of c → Store.outer h' !! o = Store.outer h !! o) →
  (∀ l, l ∈ Store.inner_of h c → Store.inner h' !! l = Store.inner h !! l) →
  view h' c = view h c ∧ Store.wf h' c ∧ Store.inner_of h' c = Store.inner_of h c.
Proof.
  intros Hwf Hfo Hfi. destruct c as [[o|]].
  - destruct (Hwf o eq_refl) as (m & Ho & Hin & Hinj).
    assert (Store.outer h' !! o = Some m) as Ho'.
    { rewrite Hfo; [done|]. unfold Store.outer_of. simpl. by apply elem_of_singleton. }
    assert (∀ k l, m !! k = Some l → Store.inner h' !! l = Store.inner h !! l) as Hsame.
    { intros k l Hk. apply Hfi. apply (elem_of_inner_of h o m l Ho). eauto. }
    split_and!.
    + rewrite (view_ref h o m Ho), (view_ref h' o m Ho'). do 2 f_equal.
      by apply content_fmap_ext.
    + intros o' [= <-]. exists m. split_and!; [done| |done].
      intros k l Hk. rewrite (Hsame _ _ Hk). eauto.
    + unfold Store.inner_of. simpl. by rewrite Ho, Ho'.
  - split_and!; [by rewrite !view_nil|by intros o [=]|by rewrite !inner_of_nil].
Qed.

Lemma separate_sym h d c : Store.separate h d c → Store.separate h c d.
Proof. intros [? ?]. split; by symmetry. Qed.

Lemma exec_other call h d c :
  Store.wf h d → Store.wf h c → Store.separate h d c →
  step_ok h d (Store.exec call h d) (exec call (view h d))
  ∧ view (Store.exec call h d).1 c = view h c
  ∧ Store.wf (Store.exec call h d).1 c
  ∧ Store.separate (Store.exec call h d).1 (Store.exec call h d).2 c.
Proof.
  intros Hd Hc [So Si]. pose proof (exec_ok call h d Hd) as Hok.
  destruct (Store.exec call h d) as [h' d'].
  destruct Hok as (Hwf' & Hv & Hfo & Hfi & Hno & Hni). simpl in *.
  destruct (wf_reaches h c Hc) as [Hco Hci].
  destruct (frame_other h h' c Hc) as (Hvc & Hwfc & Hic).
  { intros o Ho. apply Hfo; [by apply Hco|]. set_solver. }
  { intros l Hl. apply Hfi; [by apply Hci|]. set_solver. }
  split_and!; [by split_and!|done|done|].
  split.
  - intros o Ho Ho'. destruct (Hno o Ho) as [?|Hn]; [set_solver|].
    apply Hn. by apply Hco.
  - rewrite Hic. intros l Hl Hl'. destruct (Hni l Hl) as [?|Hn]; [set_solver|].
    apply Hn. by apply Hci.
Qed.

Lemma calls_of_here w call script :
  calls_of w ((w, call) :: script) = call :: calls_of w script.
Proof. unfold calls_of. by rewrite filter_cons_True. Qed.

Lemma calls_of_other w w' call script :
  w' ≠ w → calls_of w ((w', call) :: script) = calls_of w script.
Proof. intros H. unfold calls_of. by rewrite filter_cons_False. Qed.

Lemma run2_cons wc script st :
  Store.run2 (wc :: script) st = Store.run2 script (Store.exec2 wc st).
Proof. reflexivity. Qed.

Lemma exec2_original call h d c :
  Store.exec2 (Store.Original, call) (h, d, c)
  = ((Store.exec call h d).1, (Store.exec call h d).2, c).
Proof. unfold Store.exec2. simpl. by destruct (Store.exec call h d). Qed.

Lemma exec2_copy call h d c :
  Store.exec2 (Store.TheCopy, call) (h, d, c)
  = ((Store.exec call h c).1, d, (Store.exec call h c).2).
Proof. unfold Store.exec2. simpl. by destruct (Store.exec call h c). Qed.

Lemma run2_views script : ∀ h d c,
  apart (h, d, c) →
  apart (Store.run2 script (h, d, c))
  ∧ view (Store.run2 script (h, d, c)).1.1 (Store.run2 script (h, d, c)).1.2
    = run (calls_of Store.Original script) (view h d)
  ∧ view (Store.run2 script (h, d, c)).1.1 (Store.run2 script (h, d, c)).2
    = run (calls_of Store.TheCopy script) (view h c).
Proof.
  induction script as [|[w call] script IH]; intros h d c (Hd & Hc & Hs); [done|].
  rewrite run2_cons. destruct w.
  - rewrite calls_of_here, calls_of_other, exec2_original by done.
    destruct (exec_other call h d c Hd Hc Hs) as (Hok & Hvc & Hwfc & Hsep).
    destruct Hok as (Hwf' & Hv & _).
    destruct (IH (Store.exec call h d).1 (Store.exec call h d).2 c)
      as (Ha & H1 & H2); [done|].
    split_and!; [done|..].
    + rewrite H1, Hv. done.
    + rewrite H2, Hvc. done.
  - rewrite calls_of_here, calls_of_other, exec2_copy by done.
    destruct (exec_other call h c d Hc Hd (separate_sym _ _ _ Hs)) as (Hok & Hvd & Hwfd & Hsep).
    destruct Hok as (Hwf' & Hv & _).
    destruct (IH (Store.exec call h c).1 d (Store.exec call h c).2)
      as (Ha & H1 & H2); [by split_and!; [| |apply separate_sym]|].
    split_and!; [done|..].
    + rewrite H1, Hvd. done.
    + rewrite H2, Hv. done.
Qed.

(** ** Copy *)

Lemma decodeMember_step h o' hc M Mv kv :
  decoding h o' hc M Mv →
  ∃ M', decoding h o' (Store.decodeMember o' hc kv) M' (<[kv.1 := list_to_set kv.2]> Mv).
Proof.
  intros (Ho & Hsub & Hr & Hinj & Hv).
  set (l := fresh (dom (Store.inner hc))).
  assert (Store.inner hc !! l = None) as Hl by apply fresh_inner.
  assert (∀ k l', M !! k = Some l' → l' ≠ l) as Hne.
  { intros k l' Hk ->. destruct (Hr _ _ Hk) as [_ [? ?]]. congruence. }
  exists (<[kv.1 := l]> M). unfold Store.decodeMember. simpl. fold l.
  split_and!; simpl.
  - rewrite Ho. apply map_eq. intros o.
    destruct (decide (o = o')) as [->|Hoo].
    + by rewrite lookup_alter_eq, !lookup_insert_eq.
    + by rewrite lookup_alter_ne, !lookup_insert_ne.
  - etrans; [exact Hsub|]. by apply insert_subseteq.
  - intros k l' [[<- <-]|[_ Hk]]%lookup_insert_Some.
    + split; [|rewrite lookup_insert_eq; eauto].
      intros Hd. apply elem_of_dom in Hd as [s Hs].
      pose proof (lookup_weaken _ _ _ _ Hs Hsub). congruence.
    + destruct (Hr _ _ Hk) as [? ?]. split; [done|].
      rewrite lookup_insert_ne by (symmetry; eauto). done.
  - intros k1 k2 l' H1 H2.
    apply lookup_insert_Some in H1 as [[<- <-]|[N1 H1]];
      apply lookup_insert_Some in H2 as [[<- E]|[N2 H2]].
    + done.
    + by destruct (Hne _ _ H2).
    + subst. by destruct (Hne _ _ H1).
    + eauto.
  - rewrite fmap_insert, <- Hv. f_equal.
    + unfold content. simpl. by rewrite lookup_insert_eq.
    + apply map_fmap_ext. intros k l' Hk. unfold content. simpl.
      rewrite lookup_insert_ne; [done|]. symmetry. eauto.
Qed.

Lemma decode_fold h o' members : ∀ hc M Mv,
  decoding h o' hc M Mv →
  ∃ M', decoding h o' (foldl (Store.decodeMember o') hc members) M'
          (foldl (λ Mv kv, <[kv.1 := list_to_set kv.2]> Mv) Mv members).
Proof.
  induction members as [|kv members IH]; intros hc M Mv Hd; [by exists M|].
  destruct (decodeMember_step _ _ _ _ _ kv Hd) as [M' Hd']. simpl. by eapply IH.
Qed.

Lemma foldl_insert_members (f : Store.loc → gset string) (L : list (string * Store.loc)) :
  NoDup L.*1 → ∀ Mv0 : gmap string (gset string),
  foldl (λ Mv (kv : string * list string), <[kv.1 := list_to_set kv.2]> Mv) Mv0
        ((λ kl : string * Store.loc, (kl.1, elements (f kl.2))) <$> L)
  = (f <$> list_to_map L) ∪ Mv0.
Proof.
  induction L as [|[k l] L IH]; intros Hn Mv0.
  - simpl. by rewrite fmap_empty, (left_id_L ∅ (∪)).
  - rewrite fmap_cons in Hn. apply NoDup_cons in Hn as [Hk Hn].
    rewrite fmap_cons. cbn [foldl fst snd]. rewrite IH by done.
    rewrite list_to_map_cons, list_to_set_elements_L, fmap_insert.
    rewrite <- insert_union_l. symmetry. apply insert_union_r.
    rewrite lookup_fmap, (not_elem_of_list_to_map_1 _ _ Hk). done.
Qed.

Lemma Copy_ok h d :
  Store.wf h d →
  ∃ h' c,
    Store.Copy h d = (h', (c, None))
    ∧ view h' c = view h d
    ∧ view h' d = view h d
    ∧ apart (h', d, c)
    ∧ Store.outer h ⊆ Store.outer h' ∧ Store.inner h ⊆ Store.inner h'.
Proof.
  intros Hwf. destruct d as [[o|]].
  - destruct (Hwf o eq_refl) as (m & Ho & Hin & Hinj).
    unfold Store.Copy, Store.Encode, Store.Decode, Store.alloc_outer. simpl.
    rewrite Ho. simpl.
    set (o' := fresh (dom (Store.outer h))).
    assert (Store.outer h !! o' = None) as Ho' by apply fresh_outer.
    set (h0 := {| Store.outer := <[o' := ∅]> (Store.outer h);
                  Store.inner := Store.inner h |}).
    set (members := (λ kl : string * Store.loc,
                       (kl.1, elements (default ∅ (Store.inner h !! kl.2))))
                    <$> map_to_list m).
    assert (decoding h o' h0 ∅ ∅) as Hd0.
    { split_and!; simpl; done. }
    destruct (decode_fold h o' members h0 ∅ ∅ Hd0) as (M & Hout & Hsub & Hr & HinjM & Hv).
    set (hf := foldl (Store.decodeMember o') h0 members) in *.
    assert (foldl (λ Mv (kv : string * list string), <[kv.1 := list_to_set kv.2]> Mv)
              ∅ members = content h <$> m) as Hm.
    { unfold members.
      rewrite (foldl_insert_members (content h) (map_to_list m))
        by apply NoDup_fst_map_to_list.
      by rewrite list_to_map_to_list, (right_id_L ∅ (∪)). }
    rewrite Hm in Hv.
    assert (Store.outer hf !! o' = Some M) as HoM by (by rewrite Hout, lookup_insert_eq).
    assert (o ≠ o') as Hoo by congruence.
    exists hf, (Store.mkDepGraph (Some o')).
    destruct (frame_other h hf (Store.mkDepGraph (Some o)) Hwf) as (Hvd & Hwfd & Hid).
    { intros o1 Ho1. unfold Store.outer_of in Ho1. simpl in Ho1.
      apply elem_of_singleton in Ho1 as ->. by rewrite Hout, lookup_insert_ne. }
    { intros l Hl. destruct (wf_reaches _ _ Hwf) as [_ Hd].
      apply Hd, elem_of_dom in Hl as [s Hs].
      rewrite Hs. by apply (lookup_weaken _ _ _ _ Hs Hsub). }
    refine (conj _ (conj _ (conj _ (conj _ (conj _ _)))));
      [done| |done| |rewrite Hout; by apply insert_subseteq|done].
    + rewrite (view_ref hf o' M HoM), (view_ref h o m Ho). by rewrite Hv.
    + refine (conj _ (conj _ _)); [done|..].
      * intros o1 [= <-]. exists M. split_and!; [done| |done].
        intros k l Hk. by destruct (Hr _ _ Hk).
      * split.
        -- unfold Store.outer_of. simpl. set_solver.
        -- rewrite Hid. intros l Hl Hl'.
           destruct (wf_reaches _ _ Hwf) as [_ Hd]. apply Hd in Hl.
           apply (elem_of_inner_of hf o' M l HoM) in Hl' as [k Hk].
           by destruct (Hr _ _ Hk).
  - exists h, (Store.mkDepGraph None). unfold Store.Copy. simpl.
    refine (conj _ (conj _ (conj _ (conj _ (conj _ _))))); done.
Qed.

Lemma wf_nilGraph h : Store.wf h nilGraph.
Proof. by intros o [=]. Qed.



(** The copy of the graph in which "A" depends on "B": resolving "A" on
    the copy empties the copy and leaves the original as it was.  Had the
    struct merely been assigned, both would be the same map. *)
Example Copy_then_ResolveDep :
  let '(h, d) := heap_A_B in
  let '(h1, (c, err)) := Store.Copy h d in
  let '(h2, c2) := Store.ResolveDep "A" h1 c in
  err = None
  ∧ table (view h2 d) = {["A" := {["B"]}]}
  ∧ table (view h2 c2) = ∅
  ∧ (let alias := d in table (view (Store.ResolveDep "A" h alias).1 d) = ∅).
Proof. vm_compute. split_and!; reflexivity. Qed.

(* ===================================================================== *)
(** * Properties of the redactor migration                               *)
(* ===================================================================== *)

Example getSlug_examples :
  getSlug "my redactor" = "my-redactor"
  ∧ getSlug "a.b/c" = "abc"
  ∧ getSlug "A_b-9" = "A_b-9"
  ∧ getSlug ("redactor-" +:+ Itoa 12) = "redactor-12".
Proof. split_and!; vm_compute; reflexivity. Qed.

Lemma size_list_to_set_le (l : list string) :
  size (list_to_set (C := gset string) l) ≤ length l.
Proof.
  induction l as [|x l IH]; simpl; [done|].
  rewrite size_union_alt, size_singleton.
  assert (size (list_to_set (C := gset string) l ∖ {[x]}) ≤ size (list_to_set (C := gset string) l))
    by (apply subseteq_size; set_solver).
  lia.
Qed.

Lemma size_list_to_set_lt (l : list string) :
  ¬ NoDup l → size (list_to_set (C := gset string) l) < length l.
Proof.
  induction l as [|x l IH]; intros Hn; [destruct Hn; constructor|]. simpl.
  destruct (decide (x ∈ l)) as [Hin|Hout].
  - assert ({[x]} ∪ list_to_set l = list_to_set (C := gset string) l) as -> by set_solver.
    pose proof (size_list_to_set_le l). lia.
  - assert (¬ NoDup l) as Hl.
    { intros Hl. apply Hn. by apply NoDup_cons. }
    specialize (IH Hl). rewrite size_union_alt, size_singleton.
    assert (size (list_to_set (C := gset string) l ∖ {[x]}) ≤ size (list_to_set (C := gset string) l))
      by (apply subseteq_size; set_solver).
    lia.
Qed.

Section RedactFacts.
Context {Time Body : Type}.
Variable decode : string → option (@decoded Body).
Variable Marshal : @RedactorMetadata Time Body → option string.
Variable Unmarshal : string → option (@RedactorMetadata Time Body).
Variable Now : nat → Time.

Lemma length_slugsFrom (rs : list (option (@Redact Body))) : ∀ idx, length (slugsFrom idx rs) = length (omap id rs).
Proof.
  induction rs as [|[r|] rs IH]; intros idx; simpl; [done| |by apply IH].
  by rewrite IH.
Qed.

Lemma elem_of_slugsFrom (rs : list (option (@Redact Body))) : ∀ idx p r,
  rs !! p = Some (Some r) → getSlug (redactorNameOf (idx + p) r) ∈ slugsFrom idx rs.
Proof.
  induction rs as [|x rs IH]; intros idx p r Hp; [done|].
  destruct p as [|p]; simpl in Hp.
  - simplify_eq. simpl. rewrite Nat.add_0_r. left.
  - replace (idx + S p) with (S idx + p) by lia.
    specialize (IH (S idx) p r Hp). destruct x; simpl; [by right|done].
Qed.

Lemma collision_not_NoDup (rs : list (option (@Redact Body))) : ∀ idx p q rp rq,
  p < q → rs !! p = Some (Some rp) → rs !! q = Some (Some rq) →
  getSlug (redactorNameOf (idx + p) rp) = getSlug (redactorNameOf (idx + q) rq) →
  ¬ NoDup (slugsFrom idx rs).
Proof.
  induction rs as [|x rs IH]; intros idx p q rp rq Hlt Hp Hq E Hn; [done|].
  destruct q as [|q]; [lia|]. simpl in Hq.
  destruct p as [|p]; simpl in Hp.
  - simplify_eq. simpl in Hn. apply NoDup_cons in Hn as [Hout _]. apply Hout.
    rewrite Nat.add_0_r in E. rewrite E.
    replace (idx + S q) with (S idx + q) by lia. by apply elem_of_slugsFrom.
  - apply (IH (S idx) p q rp rq); [lia|done..| |].
    + by replace (S idx + p) with (idx + S p) by lia;
         replace (S idx + q) with (idx + S q) by lia.
    + destruct x; simpl in Hn; [by apply NoDup_cons in Hn as [_ ?]|done].
Qed.

(** What the loop leaves in the map when no entry fails to marshal: keys
    that are no slug are untouched, and a slug holds the entry of the last
    rule that derives it. *)
Lemma splitLoop_last rs :
  (∀ e, is_Some (Marshal e)) →
  ∀ idx t m,
  ∃ m' t',
    splitLoop Marshal Now idx rs t m = inl (m', t')
    ∧ (∀ s, s ∉ slugsFrom idx rs → m' !! s = m !! s)
    ∧ (∀ s, s ∈ slugsFrom idx rs →
         ∃ p r tp json,
           rs !! p = Some (Some r)
           ∧ getSlug (redactorNameOf (idx + p) r) = s
           ∧ (∀ q r', p < q → rs !! q = Some (Some r') →
                getSlug (redactorNameOf (idx + q) r') ≠ s)
           ∧ Marshal (newRedactor Now (idx + p) r tp) = Some json
           ∧ m' !! s = Some json).
Proof.
  intros Hm. induction rs as [|x rs IH]; intros idx t m.
  - exists m, t. split_and!; [done..|]. intros s Hs. by apply elem_of_nil in Hs.
  - destruct x as [r|]; simpl.
    + destruct (Hm (newRedactor Now idx r t)) as [json Hjson]. rewrite Hjson.
      destruct (IH (S idx) (S (S t)) (<[getSlug (redactorNameOf idx r) := json]> m))
        as (m' & t' & E & Hout & Hin).
      exists m', t'. split_and!; [exact E|..].
      * intros s Hs. rewrite Hout by (intros ?; apply Hs; by right).
        rewrite lookup_insert_ne; [done|]. intros <-. apply Hs. left.
      * intros s Hs.
        destruct (decide (s ∈ slugsFrom (S idx) rs)) as [Hrest|Hrest].
        -- destruct (Hin s Hrest) as (p & r' & tp & j' & Hp & Hsl & Hlast & Hj & Hl).
           exists (S p), r', tp, j'.
           replace (idx + S p) with (S idx + p) by lia.
           split_and!; [done..| |done|done].
           intros q r'' Hq Hq'. destruct q as [|q]; [lia|].
           replace (idx + S q) with (S idx + q) by lia.
           apply (Hlast q r''); [lia|done].
        -- apply elem_of_cons in Hs as [->|Hs]; [|done].
           exists 0, r, t, json. rewrite Nat.add_0_r.
           split_and!; [done..| |done|].
           ++ intros q r' Hq Hq' Heq. destruct q as [|q]; [lia|].
              apply Hrest. rewrite <- Heq.
              replace (idx + S q) with (S idx + q) by lia.
              by apply elem_of_slugsFrom.
           ++ rewrite Hout by done. apply lookup_insert_eq.
    + destruct (IH (S idx) t m) as (m' & t' & E & Hout & Hin).
      exists m', t'. split_and!; [exact E|exact Hout|].
      intros s Hs. destruct (Hin s Hs) as (p & r' & tp & j' & Hp & Hsl & Hlast & Hj & Hl).
      exists (S p), r', tp, j'.
      replace (idx + S p) with (S idx + p) by lia.
      split_and!; [done..| |done|done].
      intros q r'' Hq Hq'. destruct q as [|q]; [lia|].
      replace (idx + S q) with (S idx + q) by lia.
      apply (Hlast q r''); [lia|done].
Qed.

End RedactFacts.

Section MigrationFacts.
Context {Time Body : Type}.
Variable decode : string → option (@decoded Body).
Variable Marshal : @RedactorMetadata Time Body → option string.
Variable Unmarshal : string → option (@RedactorMetadata Time Body).
Variable Now : nat → Time.

(** A map returned by [splitRedactors] does not hold the legacy key. *)
Lemma splitRedactors_removes_legacy spec existingMap t m err t' :
  splitRedactors decode Marshal Now spec existingMap t = (Some m, err, t') →
  m !! legacyKey = None.
Proof.
  unfold splitRedactors. destruct (decode spec) as [[rs|]|]; [|done..].
  destruct (splitLoop Marshal Now 0 rs t existingMap) as [[m' t'']|]; [|done].
  intros [= <- _ _]. apply lookup_delete_eq.
Qed.

(** Without the legacy key [GetRedactInfo] runs no migration and does not
    write to the cluster. *)
Lemma GetRedactInfo_no_legacy data t :
  data !! legacyKey = None →
  (GetRedactInfo decode Marshal Unmarshal Now
     {| configMap := Some data; reachable := true |} t).1.1
  = {| configMap := Some data; reachable := true |}
  ∧ (GetRedactInfo decode Marshal Unmarshal Now
       {| configMap := Some data; reachable := true |} t).2 = t.
Proof.
  intros Hl. unfold GetRedactInfo, getConfigmap. simpl. rewrite Hl.
  by destruct (parseEntries Unmarshal (map_to_list data) []).
Qed.

(** C8 at a combined document with two rules that are both named "a": the
    read reports no error, and the store and the returned list hold one
    entry, that of the second rule; the first rule is lost. *)
Theorem GetRedactInfo_collision doc r1 r2 t j1 j2 :
  decode doc = Some (IsRedactor [Some r1; Some r2]) →
  RedactName r1 = "a" → RedactName r2 = "a" →
  Marshal (newRedactor Now 0 r1 t) = Some j1 →
  Marshal (newRedactor Now 1 r2 (S (S t))) = Some j2 →
  Unmarshal j2 = Some (newRedactor Now 1 r2 (S (S t))) →
  GetRedactInfo decode Marshal Unmarshal Now
    {| configMap := Some {[legacyKey := doc]}; reachable := true |} t
  = ({| configMap := Some {["a" := j2]}; reachable := true |},
     (Some [Metadata (newRedactor Now 1 r2 (S (S t)))], None),
     S (S (S (S t)))).
Proof.
  intros Hdec Hn1 Hn2 Hj1 Hj2 Hu.
  assert (redactorNameOf 0 r1 = "a") as N1.
  { unfold redactorNameOf. rewrite Hn1. by rewrite decide_True. }
  assert (redactorNameOf 1 r2 = "a") as N2.
  { unfold redactorNameOf. rewrite Hn2. by rewrite decide_True. }
  assert (getSlug "a" = "a") as Hs by (vm_compute; reflexivity).
  unfold GetRedactInfo, getConfigmap. cbn [reachable configMap].
  rewrite lookup_singleton_eq.
  unfold splitRedactors. rewrite Hdec. cbn [splitLoop]. rewrite Hj1.
  cbn [Slug Metadata newRedactor]. rewrite Hj2.
  cbn [Slug Metadata newRedactor]. rewrite N1, N2, Hs.
  rewrite insert_insert_eq.
  assert (delete legacyKey (<["a" := j2]> ({[legacyKey := doc]} : gmap string string))
          = {["a" := j2]}) as ->.
  { rewrite delete_insert_ne by done. by rewrite delete_singleton_eq. }
  unfold writeConfigmap. cbn [reachable default]. unfold id.
  rewrite map_to_list_singleton. cbn [parseEntries]. rewrite Hu.
  cbn [app Metadata newRedactor]. rewrite ?N2, ?Hs. reflexivity.
Qed.
End MigrationFacts.


Lemma GetRedactInfo_collision_witness :
  GetRedactInfo toy_decode toy_Marshal toy_Unmarshal (λ n, n)
    {| configMap := Some {[legacyKey := "two rules named a"]}; reachable := true |} 0
  = ({| configMap := Some {["a" := "a"]}; reachable := true |},
     (Some [Metadata (newRedactor (λ n, n) 1 rule_a 2)], None), 4).
Proof.
  apply (GetRedactInfo_collision toy_decode toy_Marshal toy_Unmarshal (λ n, n)
           "two rules named a" rule_a rule_a 0 "a" "a"); reflexivity.
Defined.

(* ===================================================================== *)
(** * Further properties of the dependency graph                         *)
(* ===================================================================== *)

Lemma AddNode_Some source d :
  AddNode source d = {| Dependencies := Some (table (AddNode source d)) |}.
Proof.
  unfold AddNode, table. destruct d as [[m|]]; simpl.
  - by destruct (m !! source).
  - by rewrite lookup_empty.
Qed.

Lemma lookup_table_AddNode source d k :
  table (AddNode source d) !! k =
    if decide (k = source) then Some (default ∅ (table d !! source)) else table d !! k.
Proof.
  rewrite table_AddNode. destruct (table d !! source) as [s|] eqn:E; simpl.
  - case_decide; [by subst|done].
  - case_decide; [subst; by rewrite lookup_insert_eq|by rewrite lookup_insert_ne].
Qed.

(** X1. [AddNode] gives a new node the empty dependency set and leaves the
    dependency set of a node that exists, and every other node, as they
    are; calling it again, or after [AddDep] on the same node, changes
    nothing. *)
Theorem AddNode_keeps_dependencies source d :
  table (AddNode source d) !! source = Some (default ∅ (table d !! source))
  ∧ (∀ k, k ≠ source → table (AddNode source d) !! k = table d !! k)
  ∧ AddNode source (AddNode source d) = AddNode source d
  ∧ (∀ dep, AddNode source (AddDep source dep d) = AddDep source dep d).
Proof.
  split_and!.
  - rewrite lookup_table_AddNode. by rewrite decide_True.
  - intros k Hk. rewrite lookup_table_AddNode. by rewrite decide_False.
  - rewrite (AddNode_Some source (AddNode source d)).
    rewrite (AddNode_Some source d) at 2. do 2 f_equal.
    apply map_eq. intros k. rewrite !lookup_table_AddNode.
    case_decide; [|done]. by rewrite decide_True.
  - intros dep. rewrite (AddNode_Some source (AddDep source dep d)).
    rewrite (AddDep_Some source dep d) at 2. do 2 f_equal.
    apply map_eq. intros k. rewrite lookup_table_AddNode.
    case_decide; [|done]. subst. rewrite table_AddDep, lookup_insert_eq. done.
Qed.

Lemma ResolveDep_shape x d :
  Dependencies (ResolveDep x d) = (λ _, table (ResolveDep x d)) <$> Dependencies d.
Proof. unfold ResolveDep, table. by destruct d as [[m|]]. Qed.

Lemma depGraph_eq d1 d2 :
  (is_Some (Dependencies d1) ↔ is_Some (Dependencies d2)) →
  table d1 = table d2 → d1 = d2.
Proof.
  destruct d1 as [[m1|]], d2 as [[m2|]]; unfold table; simpl; intros H E.
  - by subst.
  - destruct H as [H _]. by destruct (H (ltac:(eauto))).
  - destruct H as [_ H]. by destruct (H (ltac:(eauto))).
  - done.
Qed.

Lemma ResolveDep_is_Some x d :
  is_Some (Dependencies (ResolveDep x d)) ↔ is_Some (Dependencies d).
Proof. rewrite ResolveDep_shape. apply fmap_is_Some. Qed.

Lemma ResolveDep_comm x y d :
  ResolveDep x (ResolveDep y d) = ResolveDep y (ResolveDep x d).
Proof.
  apply depGraph_eq.
  - by rewrite !ResolveDep_is_Some.
  - apply map_eq. intros k. rewrite !lookup_table_ResolveDep.
    repeat case_decide; try done.
    destruct (table d !! k); simpl; [|done]. f_equal. set_solver.
Qed.

Lemma ResolveDeps_cons x xs d : ResolveDeps (x :: xs) d = ResolveDeps xs (ResolveDep x d).
Proof. reflexivity. Qed.

Lemma ResolveDeps_Permutation xs ys :
  xs ≡ₚ ys → ∀ d, ResolveDeps xs d = ResolveDeps ys d.
Proof.
  induction 1 as [|x xs ys _ IH|x y xs|xs ys zs _ IH1 _ IH2]; intros d.
  - done.
  - rewrite !ResolveDeps_cons. apply IH.
  - rewrite !ResolveDeps_cons. by rewrite ResolveDep_comm.
  - by rewrite IH1, IH2.
Qed.

(** X2. The order in which the nodes of a batch are resolved does not
    matter: two calls of [ResolveDep] commute, a repeated call changes
    nothing, and resolving the same names in another order leaves the same
    graph. *)
Theorem ResolveDep_order_irrelevant d :
  (∀ x y, ResolveDep x (ResolveDep y d) = ResolveDep y (ResolveDep x d))
  ∧ (∀ x, ResolveDep x (ResolveDep x d) = ResolveDep x d)
  ∧ (∀ xs ys, xs ≡ₚ ys → ResolveDeps xs d = ResolveDeps ys d).
Proof.
  split_and!.
  - intros x y. apply ResolveDep_comm.
  - intros x. apply depGraph_eq.
    + by rewrite !ResolveDep_is_Some.
    + apply map_eq. intros k. rewrite !lookup_table_ResolveDep.
      case_decide; [done|]. destruct (table d !! k); simpl; [|done]. f_equal. set_solver.
  - intros xs ys H. by apply ResolveDeps_Permutation.
Qed.

Lemma ResolveDep_order_irrelevant_witness :
  ["A"; "B"] ≡ₚ ["B"; "A"]
  ∧ ResolveDeps ["A"; "B"] graph_cycle = ResolveDeps ["B"; "A"] graph_cycle.
Proof.
  assert (["A"; "B"] ≡ₚ ["B"; "A"]) as Hp by apply perm_swap.
  split; [exact Hp|].
  destruct (ResolveDep_order_irrelevant graph_cycle) as (_ & _ & H).
  exact (H _ _ Hp).
Defined.

(** X3. The results [GetHeadNodes] can have on one graph differ only in
    order: the head nodes of any two are permutations of each other, and
    either both carry an error or neither does.  On a graph without nodes,
    nil or empty, the result is no node and no error. *)
Theorem GetHeadNodes_results_agree d r1 r2 :
  GetHeadNodes_may d r1 → GetHeadNodes_may d r2 →
  r1.2.1 ≡ₚ r2.2.1
  ∧ (is_Some r1.2.2 ↔ is_Some r2.2.2)
  ∧ (table d = ∅ → r1 = (d, ([], None))).
Proof.
  intros H1 H2.
  destruct (GetHeadNodes_may_inv _ _ H1) as [Hh1 He1].
  destruct (GetHeadNodes_may_inv _ _ H2) as [Hh2 He2].
  destruct H1 as (e1 & e1' & Hv1 & Hv1' & ->).
  destruct H2 as (e2 & e2' & Hv2 & Hv2' & ->). simpl in *.
  split_and!.
  - rewrite !GetHeadNodes_in_heads in *.
    apply NoDup_Permutation; [by eapply NoDup_heads_in..|].
    intros x. by rewrite Hh1, Hh2.
  - by rewrite He1, He2.
  - intros E. rewrite E in Hv1. apply visits_empty_inv in Hv1.
    assert (e1 = []) as -> by (by apply Hv1). reflexivity.
Qed.

Lemma GetHeadNodes_results_agree_witness :
  GetHeadNodes_may emptyGraph (GetHeadNodes emptyGraph)
  ∧ GetHeadNodes emptyGraph = (emptyGraph, ([], None)).
Proof.
  split; [apply GetHeadNodes_may_self|].
  destruct (GetHeadNodes_results_agree emptyGraph _ _
              (GetHeadNodes_may_self emptyGraph) (GetHeadNodes_may_self emptyGraph))
    as (_ & _ & H).
  apply H. reflexivity.
Defined.

(** X4. The graph that discovery builds does not depend on the order in
    which the references are met: two calls of [AddDep] commute. *)
Theorem AddDep_comm s1 t1 s2 t2 d :
  AddDep s1 t1 (AddDep s2 t2 d) = AddDep s2 t2 (AddDep s1 t1 d).
Proof.
  rewrite (AddDep_Some s1 t1 (AddDep s2 t2 d)), (AddDep_Some s2 t2 (AddDep s1 t1 d)).
  do 2 f_equal. apply map_eq. intros k. rewrite !table_AddDep.
  destruct (decide (s1 = s2)) as [->|Hne].
  - rewrite !lookup_insert_eq, !insert_insert_eq. simpl.
    destruct (decide (k = s2)) as [->|Hk].
    + rewrite !lookup_insert_eq. f_equal. set_solver.
    + by rewrite !lookup_insert_ne.
  - rewrite !(lookup_insert_ne _ s2 s1), !(lookup_insert_ne _ s1 s2) by done.
    destruct (decide (k = s1)) as [->|Hk1].
    + by rewrite lookup_insert_eq, lookup_insert_ne, lookup_insert_eq.
    + rewrite (lookup_insert_ne _ s1 k) by done.
      destruct (decide (k = s2)) as [->|Hk2].
      * by rewrite !lookup_insert_eq.
      * by rewrite !lookup_insert_ne.
Qed.

(** X5. A dependency on a name that is not a node blocks for good: as long
    as only head nodes are resolved, the name stays absent, the edge stays,
    and the dependent node is not returned by [GetHeadNodes]. *)
Theorem dangling_dependency_blocks cs : ∀ d A B,
  edge (table d) A B → table d !! B = None →
  Forall (λ c, ∃ x, c = CallResolveDep x) cs → resolves_heads_only d cs →
  edge (table (run cs d)) A B
  ∧ table (run cs d) !! B = None
  ∧ ∀ r, GetHeadNodes_may (run cs d) r → A ∉ r.2.1.
Proof.
  induction cs as [|c cs IH]; intros d A B He HB Hall Hd.
  - split_and!; [done..|]. intros r Hr. by eapply edge_not_head.
  - apply Forall_cons in Hall as [[x ->] Hall]. destruct Hd as [Hx Hd].
    simpl in Hx. change (run (CallResolveDep x :: cs) d) with (run cs (ResolveDep x d)).
    apply IH; [|  |done|done].
    + apply edge_ResolveDep; [done| |congruence].
      intros ->. destruct He as (s & Hs & Hin). rewrite Hs in Hx. simplify_eq. set_solver.
    + rewrite lookup_table_ResolveDep. case_decide; [done|]. by rewrite HB.
Qed.

Lemma dangling_dependency_blocks_witness :
  let d := AddNode "C" graph_dangling in
  edge (table d) "A" "B" ∧ table d !! "B" = None
  ∧ "A" ∉ (GetHeadNodes (run [CallResolveDep "C"] d)).2.1.
Proof.
  intros d.
  assert (edge (table d) "A" "B") as He.
  { exists {["B"]}. split; [vm_compute; reflexivity|set_solver]. }
  assert (table d !! "B" = None) as HB by (vm_compute; reflexivity).
  split_and!; [exact He|exact HB|].
  destruct (dangling_dependency_blocks [CallResolveDep "C"] d "A" "B" He HB)
    as (_ & _ & H).
  - repeat constructor. by eexists.
  - split; [vm_compute; reflexivity|done].
  - apply H, GetHeadNodes_may_self.
Defined.

Section ParseConfigGroupFacts.
Variable BuilderString :
  gmap string TemplateFunc → string → depGraph → depGraph * (string * option string).

(** Rendering with a recording table only adds to the graph. *)
Hypothesis builder_keeps_nodes : ∀ parent template g k,
  is_Some (table g !! k) →
  is_Some (table (BuilderString (funcMap parent) template g).1 !! k).

Lemma parseItem_nodes g item k :
  is_Some (table g !! k) ∨ k = ItemName item →
  is_Some (table (parseItem BuilderString g item) !! k).
Proof.
  intros H. unfold parseItem. do 2 apply builder_keeps_nodes.
  rewrite lookup_table_AddNode. case_decide; [eauto|]. by destruct H.
Qed.

Lemma parseItems_nodes items : ∀ g k,
  is_Some (table g !! k) ∨ (∃ item, item ∈ items ∧ k = ItemName item) →
  is_Some (table (foldl (parseItem BuilderString) g items) !! k).
Proof.
  induction items as [|item items IH]; intros g k H; simpl.
  - destruct H as [?|(? & ?%elem_of_nil & _)]; done.
  - apply IH. destruct H as [H|(it & [->|Hin]%elem_of_cons & ->)].
    + left. apply parseItem_nodes. by left.
    + left. apply parseItem_nodes. by right.
    + right. eauto.
Qed.

(** X6. [ParseConfigGroup] never reports an error, whatever rendering
    does; and when rendering with a recording table only adds to the graph,
    every item of every group is a node afterwards, also an item without
    dependencies, and the nodes that were there before still are. *)
Theorem ParseConfigGroup_adds_every_item groups : ∀ d,
  (ParseConfigGroup BuilderString groups d).2 = None
  ∧ (∀ group item, group ∈ groups → item ∈ Items group →
       is_Some (table (ParseConfigGroup BuilderString groups d).1 !! ItemName item))
  ∧ (∀ k, is_Some (table d !! k) →
       is_Some (table (ParseConfigGroup BuilderString groups d).1 !! k)).
Proof.
  unfold ParseConfigGroup. simpl.
  induction groups as [|g groups IH]; intros d; simpl.
  - split_and!; [done| |done]. intros group item Hg. by apply elem_of_nil in Hg.
  - destruct (IH (foldl (parseItem BuilderString) d (Items g))) as (_ & H2 & H3).
    split_and!; [done|..].
    + intros group item [->|Hg]%elem_of_cons Hi.
      * apply H3. apply parseItems_nodes. right. eauto.
      * by apply (H2 group).
    + intros k Hk. apply H3. apply parseItems_nodes. by left.
Qed.
End ParseConfigGroupFacts.

Lemma AddNode_keeps_dependencies_witness :
  "B" ≠ "A" ∧ table (AddNode "A" graph_A_BC) !! "B" = table graph_A_BC !! "B".
Proof.
  assert ("B" ≠ "A") as Hne by discriminate.
  split; [exact Hne|].
  exact (proj1 (proj2 (AddNode_keeps_dependencies "A" graph_A_BC)) "B" Hne).
Defined.

Lemma refBuilder_keeps_nodes parent template g k :
  is_Some (table g !! k) →
  is_Some (table (refBuilder (funcMap parent) template g).1 !! k).
Proof.
  intros Hk. unfold refBuilder. case_decide; [done|].
  unfold funcMap. rewrite lookup_insert_eq. simpl.
  rewrite table_AddDep. destruct (decide (parent = k)) as [->|Hne].
  - rewrite lookup_insert_eq. eauto.
  - by rewrite lookup_insert_ne.
Qed.

Lemma ParseConfigGroup_adds_every_item_witness :
  (∀ parent template g k,
     is_Some (table g !! k) →
     is_Some (table (refBuilder (funcMap parent) template g).1 !! k))
  ∧ is_Some (table (ParseConfigGroup refBuilder groups_A_B emptyGraph).1 !! "A")
  ∧ is_Some (table (ParseConfigGroup refBuilder groups_A_B emptyGraph).1 !! "B").
Proof.
  split; [exact refBuilder_keeps_nodes|].
  destruct (ParseConfigGroup_adds_every_item refBuilder refBuilder_keeps_nodes
              groups_A_B emptyGraph) as (_ & H & _).
  split.
  - apply (H {| Items := [ {| ItemName := "A"; Default := "1"; Value := EmptyString |} ] |}
             {| ItemName := "A"; Default := "1"; Value := EmptyString |});
      [left|left].
  - apply (H {| Items := [ {| ItemName := "B"; Default := "A"; Value := EmptyString |} ] |}
             {| ItemName := "B"; Default := "A"; Value := EmptyString |});
      [right; left|left].
Defined.

(* ===================================================================== *)
(** * Further properties of the graph on the heap                        *)
(* ===================================================================== *)

(** X7. On a well-formed graph each of [AddNode], [AddDep] and [ResolveDep]
    leaves a well-formed graph that holds what the method makes of the
    graph as a value, and writes to no map object that existed before
    other than those of its receiver. *)
Theorem heap_methods_refine c h d :
  Store.wf h d →
  Store.wf (Store.exec c h d).1 (Store.exec c h d).2
  ∧ view (Store.exec c h d).1 (Store.exec c h d).2 = exec c (view h d)
  ∧ (∀ o, o ∈ dom (Store.outer h) → o ∉ Store.outer_of d →
       Store.outer (Store.exec c h d).1 !! o = Store.outer h !! o)
  ∧ (∀ l, l ∈ dom (Store.inner h) → l ∉ Store.inner_of h d →
       Store.inner (Store.exec c h d).1 !! l = Store.inner h !! l).
Proof.
  intros Hwf. destruct (exec_ok c h d Hwf) as (H1 & H2 & H3 & H4 & _).
  by split_and!.
Qed.

Lemma heap_methods_refine_witness :
  Store.wf heap_A_B.1 heap_A_B.2
  ∧ view (Store.exec (CallResolveDep "B") heap_A_B.1 heap_A_B.2).1
         (Store.exec (CallResolveDep "B") heap_A_B.1 heap_A_B.2).2
    = ResolveDep "B" (view heap_A_B.1 heap_A_B.2).
Proof.
  assert (Store.wf heap_A_B.1 heap_A_B.2) as Hwf.
  { apply (AddDep_ok "A" "B" emptyHeap nilGraph (wf_nilGraph _)). }
  split; [exact Hwf|].
  exact (proj1 (proj2 (heap_methods_refine (CallResolveDep "B") _ _ Hwf))).
Defined.

(** X8. [Copy] writes to no map object of the heap: every map object that
    existed is still there with the same content, so no graph on the heap
    changes.  The copy of a graph whose map is nil has a nil map, and the
    heap is then the same. *)
Theorem Copy_allocates_only h d :
  Store.wf h d →
  Store.outer h ⊆ Store.outer (Store.Copy h d).1
  ∧ Store.inner h ⊆ Store.inner (Store.Copy h d).1
  ∧ Store.wf (Store.Copy h d).1 (Store.Copy h d).2.1
  ∧ (Store.Dependencies d = None →
     Store.Copy h d = (h, ({| Store.Dependencies := None |}, None))).
Proof.
  intros Hwf. destruct (Copy_ok h d Hwf) as (h' & c & E & _ & _ & Ha & Ho & Hi).
  split_and!.
  - by rewrite E.
  - by rewrite E.
  - rewrite E. by destruct Ha as (_ & ? & _).
  - intros Hn. destruct d as [[o|]]; [done|]. reflexivity.
Qed.

Lemma Copy_allocates_only_witness :
  Store.wf heap_A_B.1 heap_A_B.2
  ∧ Store.inner heap_A_B.1 ⊆ Store.inner (Store.Copy heap_A_B.1 heap_A_B.2).1.
Proof.
  assert (Store.wf heap_A_B.1 heap_A_B.2) as Hwf.
  { apply (AddDep_ok "A" "B" emptyHeap nilGraph (wf_nilGraph _)). }
  split; [exact Hwf|].
  exact (proj1 (proj2 (Copy_allocates_only _ _ Hwf))).
Defined.

(* ===================================================================== *)
(** * Further properties of the redactors                                *)
(* ===================================================================== *)

(** ** Slugs *)

Lemma wordByte_space : wordByte " " = false.
Proof. reflexivity. Qed.

Lemma wordString_stripNonWord s : wordString (stripNonWord s) = true.
Proof.
  induction s as [|c s IH]; simpl; [done|].
  destruct (wordByte c) eqn:E; simpl; [by rewrite E|done].
Qed.

Lemma stripNonWord_word s : wordString s = true → stripNonWord s = s.
Proof.
  induction s as [|c s IH]; simpl; [done|].
  intros [Hc Hs]%andb_true_iff. rewrite Hc. f_equal. by apply IH.
Qed.

Lemma replaceSpaces_word s : wordString s = true → replaceSpaces s = s.
Proof.
  induction s as [|c s IH]; simpl; [done|].
  intros [Hc Hs]%andb_true_iff. rewrite IH by done.
  case_decide as E; [|done]. subst. by rewrite wordByte_space in Hc.
Qed.

Lemma length_stripNonWord s : String.length (stripNonWord s) ≤ String.length s.
Proof.
  induction s as [|c s IH]; simpl; [done|].
  destruct (wordByte c); simpl; lia.
Qed.

Lemma length_replaceSpaces s : String.length (replaceSpaces s) = String.length s.
Proof. induction s as [|c s IH]; simpl; [done|]. by rewrite IH. Qed.

Lemma getSlug_word name : wordString name = true → getSlug name = name.
Proof.
  intros H. unfold getSlug. rewrite replaceSpaces_word by done.
  by apply stripNonWord_word.
Qed.

(** X9. A slug holds only letters, digits, underscores and hyphens and is
    not longer than the name; a name that holds only such bytes is its own
    slug, and so is every slug. *)
Theorem getSlug_normal_form name :
  wordString (getSlug name) = true
  ∧ String.length (getSlug name) ≤ String.length name
  ∧ (wordString name = true → getSlug name = name)
  ∧ getSlug (getSlug name) = getSlug name.
Proof.
  assert (wordString (getSlug name) = true) as H by apply wordString_stripNonWord.
  split_and!.
  - exact H.
  - unfold getSlug. rewrite <- (length_replaceSpaces name). apply length_stripNonWord.
  - apply getSlug_word.
  - by apply getSlug_word.
Qed.

Lemma getSlug_normal_form_witness :
  wordString "A_b-9" = true ∧ getSlug "A_b-9" = "A_b-9".
Proof.
  assert (wordString "A_b-9" = true) as H by reflexivity.
  split; [exact H|].
  exact (proj1 (proj2 (proj2 (getSlug_normal_form "A_b-9"))) H).
Defined.

Lemma wordString_app s1 s2 :
  wordString (s1 +:+ s2) = wordString s1 && wordString s2.
Proof. induction s1 as [|c s1 IH]; simpl; [done|]. by rewrite IH, andb_assoc. Qed.

Lemma wordString_uint d : wordString (NilEmpty.string_of_uint d) = true.
Proof. induction d; simpl; try done. Qed.

Lemma wordString_Itoa n : wordString (Itoa n) = true.
Proof.
  unfold Itoa, NilZero.string_of_uint.
  destruct (Nat.to_uint n); try done; apply (wordString_uint (_ _)).
Qed.

Lemma Itoa_inj n n' : Itoa n = Itoa n' → n = n'.
Proof.
  unfold Itoa. intros E. apply DecimalNat.Unsigned.to_uint_inj.
  assert (∀ k, Nat.to_uint k ≠ Decimal.Nil) as Hnn.
  { intros k Hk. pose proof (DecimalNat.Unsigned.of_to k) as Hof.
    pose proof (DecimalNat.Unsigned.to_of (Nat.to_uint k)) as Hto.
    rewrite Hof in Hto. rewrite Hk in Hto at 2. simpl in Hto.
    rewrite Hk in Hto. discriminate. }
  pose proof (NilZero.usu _ (Hnn n)) as H1.
  pose proof (NilZero.usu _ (Hnn n')) as H2.
  rewrite E in H1. congruence.
Qed.

Section SlugFacts.
Context {Body : Type}.

(** X10. A rule without a name is split under the name "redactor-" followed
    by its index, which is its own slug; two rules without a name never
    derive the same slug. *)
Theorem unnamed_rules_get_distinct_slugs i j (r r' : @Redact Body) :
  RedactName r = EmptyString → RedactName r' = EmptyString →
  redactorNameOf i r = "redactor-" +:+ Itoa i
  ∧ getSlug (redactorNameOf i r) = "redactor-" +:+ Itoa i
  ∧ (getSlug (redactorNameOf i r) = getSlug (redactorNameOf j r') → i = j).
Proof.
  intros Hr Hr'.
  assert (∀ k (x : @Redact Body), RedactName x = EmptyString →
            redactorNameOf k x = "redactor-" +:+ Itoa k) as Hname.
  { intros k x Hx. unfold redactorNameOf. rewrite Hx. by rewrite decide_False by auto. }
  assert (∀ k, getSlug ("redactor-" +:+ Itoa k) = "redactor-" +:+ Itoa k) as Hslug.
  { intros k. apply getSlug_word. rewrite wordString_app, wordString_Itoa. reflexivity. }
  split_and!.
  - by apply Hname.
  - rewrite Hname by done. apply Hslug.
  - rewrite !Hname, !Hslug by done. intros E.
    apply Itoa_inj. by apply (inj (String.app "redactor-")) in E.
Qed.
End SlugFacts.

Lemma unnamed_rules_get_distinct_slugs_witness :
  RedactName (mkRedact EmptyString ()) = EmptyString
  ∧ getSlug (redactorNameOf 7 (mkRedact EmptyString ())) = "redactor-7".
Proof.
  split; [reflexivity|].
  exact (proj1 (proj2 (unnamed_rules_get_distinct_slugs 7 7
                         (mkRedact EmptyString ()) (mkRedact EmptyString ())
                         eq_refl eq_refl))).
Defined.

(** ** The migration *)

Section MigrationMore.
Context {Time Body : Type}.
Variable decode : string → option (@decoded Body).
Variable Marshal : @RedactorMetadata Time Body → option string.
Variable Unmarshal : string → option (@RedactorMetadata Time Body).
Variable Now : nat → Time.

Lemma same_slug_same_rule (rs : list (option (@Redact Body))) idx p q rp rq :
  NoDup (slugsFrom idx rs) →
  rs !! p = Some (Some rp) → rs !! q = Some (Some rq) →
  getSlug (redactorNameOf (idx + p) rp) = getSlug (redactorNameOf (idx + q) rq) →
  p = q.
Proof.
  intros Hn Hp Hq E.
  destruct (Nat.lt_trichotomy p q) as [Hlt|[->|Hlt]]; [|done|].
  - by destruct (collision_not_NoDup rs idx p q rp rq Hlt Hp Hq E).
  - by destruct (collision_not_NoDup rs idx q p rq rp Hlt Hq Hp (eq_sym E)).
Qed.

(** What [splitRedactors] returns when no two rules derive the same slug. *)
Lemma splitRedactors_distinct spec existingMap t rs :
  decode spec = Some (IsRedactor rs) →
  (∀ e, is_Some (Marshal e)) →
  NoDup (slugsFrom 0 rs) → legacyKey ∉ slugsFrom 0 rs →
  ∃ m t',
    splitRedactors decode Marshal Now spec existingMap t = (Some m, None, t')
    ∧ m !! legacyKey = None
    ∧ (∀ p r, rs !! p = Some (Some r) →
         ∃ tp json,
           Marshal (newRedactor Now p r tp) = Some json
           ∧ m !! getSlug (redactorNameOf p r) = Some json
           ∧ Enabled (Metadata (newRedactor Now p r tp)) = true
           ∧ Slug (Metadata (newRedactor Now p r tp)) = getSlug (redactorNameOf p r))
    ∧ (∀ k, k ∉ slugsFrom 0 rs → k ≠ legacyKey → m !! k = existingMap !! k)
    ∧ ((∀ k, k ∈ slugsFrom 0 rs → existingMap !! k = None) →
       size m = size (delete legacyKey existingMap) + length (omap id rs)).
Proof.
  intros Hdec Hm Hnd Hleg.
  destruct (splitLoop_last Marshal Now rs Hm 0 t existingMap) as (m' & t' & E & Hout & Hin).
  unfold splitRedactors. rewrite Hdec, E.
  exists (delete legacyKey m'), t'. split_and!; [done|apply lookup_delete_eq|..].
  - intros p r Hp.
    destruct (Hin (getSlug (redactorNameOf p r)))
      as (q & r' & tq & json & Hq & Hsl & _ & Hjs & Hl).
    { by apply (elem_of_slugsFrom rs 0 p r). }
    simpl in *.
    assert (q = p) as -> by (by eapply (same_slug_same_rule rs 0 q p r' r)).
    assert (r' = r) as -> by congruence.
    exists tq, json. split_and!; [done| |done|done].
    rewrite lookup_delete_ne; [done|].
    intros Heq. apply Hleg. rewrite Heq. by apply (elem_of_slugsFrom rs 0 p r).
  - intros k Hk Hne. rewrite lookup_delete_ne by done. by apply Hout.
  - intros Hfresh.
    assert (dom (delete legacyKey m')
            = dom (delete legacyKey existingMap) ∪ list_to_set (slugsFrom 0 rs)) as Hdom.
    { apply set_eq. intros s.
      rewrite elem_of_union, !elem_of_dom, elem_of_list_to_set.
      rewrite !lookup_delete_is_Some. split.
      - intros [Hne [v Hv]].
        destruct (decide (s ∈ slugsFrom 0 rs)) as [?|Hs]; [by right|left].
        rewrite Hout in Hv by done. eauto.
      - intros [[Hne [v Hv]]|Hs].
        + split; [done|]. destruct (decide (s ∈ slugsFrom 0 rs)) as [Hs|Hs].
          * rewrite Hfresh in Hv; done.
          * rewrite Hout by done. eauto.
        + split; [by intros <-|].
          destruct (Hin s Hs) as (? & ? & ? & json & _ & _ & _ & _ & Hl). eauto. }
    rewrite <- !size_dom, Hdom, size_union.
    + rewrite size_list_to_set by done. by rewrite length_slugsFrom.
    + intros s Hs1 Hs2. apply elem_of_list_to_set in Hs2.
      apply elem_of_dom in Hs1 as [v [_ Hv]%lookup_delete_Some].
      rewrite Hfresh in Hv; done.
Qed.

(** X11. When the rules that are not nil derive pairwise distinct slugs,
    none of them the legacy key, and every entry marshals,
    [splitRedactors] returns a map and no error in which each rule has its
    own entry under its slug, enabled and carrying that slug; the legacy
    key is gone and every other key is as it was.  If no slug was a key
    before, the map has grown by exactly one entry per rule. *)
Theorem splitRedactors_one_entry_per_rule spec existingMap t rs :
  decode spec = Some (IsRedactor rs) →
  (∀ e, is_Some (Marshal e)) →
  NoDup (slugsFrom 0 rs) → legacyKey ∉ slugsFrom 0 rs →
  ∃ m t',
    splitRedactors decode Marshal Now spec existingMap t = (Some m, None, t')
    ∧ m !! legacyKey = None
    ∧ (∀ p r, rs !! p = Some (Some r) →
         ∃ tp json,
           Marshal (newRedactor Now p r tp) = Some json
           ∧ m !! getSlug (redactorNameOf p r) = Some json
           ∧ Enabled (Metadata (newRedactor Now p r tp)) = true
           ∧ Slug (Metadata (newRedactor Now p r tp)) = getSlug (redactorNameOf p r))
    ∧ (∀ k, k ∉ slugsFrom 0 rs → k ≠ legacyKey → m !! k = existingMap !! k)
    ∧ ((∀ k, k ∈ slugsFrom 0 rs → existingMap !! k = None) →
       size m = size (delete legacyKey existingMap) + length (omap id rs)).
Proof. apply splitRedactors_distinct. Qed.

(** X12. When the legacy key holds a document that decodes to an object of
    another kind, [splitRedactors] returns neither a map nor an error, and
    [GetRedactInfo] then writes the empty map: the read reports no error,
    returns no entry, and every entry of the store is gone. *)
Theorem GetRedactInfo_other_kind_clears_store data doc t :
  data !! legacyKey = Some doc → decode doc = Some OtherKind →
  splitRedactors decode Marshal Now doc data t = (None, None, t)
  ∧ GetRedactInfo decode Marshal Unmarshal Now
      {| configMap := Some data; reachable := true |} t
    = ({| configMap := Some ∅; reachable := true |}, (Some [], None), t).
Proof.
  intros Hl Hd. split.
  - unfold splitRedactors. by rewrite Hd.
  - unfold GetRedactInfo, getConfigmap. cbn [reachable configMap]. rewrite Hl.
    unfold splitRedactors. rewrite Hd. unfold writeConfigmap. cbn [reachable default].
    unfold id. by rewrite map_to_list_empty.
Qed.

Lemma GetRedactInfo_fixed data t :
  data !! legacyKey = None →
  GetRedactInfo decode Marshal Unmarshal Now
    {| configMap := Some data; reachable := true |} t
  = ({| configMap := Some data; reachable := true |},
     match parseEntries Unmarshal (map_to_list data) [] with
     | inr msg => (None, Some msg)
     | inl list_ => (Some list_, None)
     end, t).
Proof.
  intros Hl. unfold GetRedactInfo, getConfigmap. cbn [reachable configMap].
  rewrite Hl. by destruct (parseEntries Unmarshal (map_to_list data) []).
Qed.

Lemma splitRedactors_no_legacy spec existingMap t m e t' :
  splitRedactors decode Marshal Now spec existingMap t = (m, e, t') →
  default ∅ m !! legacyKey = None.
Proof.
  destruct m as [m|]; [|done]. intros H. simpl.
  by eapply splitRedactors_removes_legacy.
Qed.

Lemma parseEntries_error kvs : ∀ acc msg,
  parseEntries Unmarshal kvs acc = inr msg → ∃ k, msg = "unable to parse key " +:+ k.
Proof.
  induction kvs as [|[k v] kvs IH]; intros acc msg; simpl; [done|].
  destruct (Unmarshal v); [apply IH|]. intros [= <-]. eauto.
Qed.

(** What [GetRedactInfo] returns, case by case. *)
Lemma GetRedactInfo_cases c t :
  (* the cluster cannot be reached *)
  (reachable c = false
   ∧ GetRedactInfo decode Marshal Unmarshal Now c t
     = (c, (None, Some "get redactors configmap"), t))
  (* the combined document cannot be split *)
  ∨ (GetRedactInfo decode Marshal Unmarshal Now c t
     = (c, (None, Some "failed to split combined redactors"), t))
  (* the entries are read from a map without the legacy key *)
  ∨ (∃ data t',
       data !! legacyKey = None
       ∧ GetRedactInfo decode Marshal Unmarshal Now c t
         = ({| configMap := Some data; reachable := true |},
            match parseEntries Unmarshal (map_to_list data) [] with
            | inr msg => (None, Some msg)
            | inl list_ => (Some list_, None)
            end, t')).
Proof.
  destruct c as [cm [|]]; [|by left].
  right. unfold GetRedactInfo, getConfigmap. cbn [reachable configMap].
  destruct cm as [data|].
  - destruct (data !! legacyKey) as [doc|] eqn:Hl.
    + destruct (splitRedactors decode Marshal Now doc data t) as [[m e] t'] eqn:Hs.
      destruct e as [e|].
      * left. pose proof Hs as Hs'. unfold splitRedactors in Hs'.
        destruct (decode doc) as [[rs|]|]; simplify_eq; [|done].
        destruct (splitLoop Marshal Now 0 rs t data) as [[? ?]|]; simplify_eq. done.
      * right. exists (default ∅ m), t'.
        pose proof (splitRedactors_removes_legacy decode Marshal Now doc data t) as Hr.
        split.
        -- destruct m as [m|]; [by eapply Hr|done].
        -- unfold writeConfigmap. simpl.
           by destruct (parseEntries Unmarshal (map_to_list (default ∅ m)) []).
    + right. exists data, t. split; [done|].
      by destruct (parseEntries Unmarshal (map_to_list data) []).
  - right. exists ∅, t. split; [done|]. rewrite lookup_empty.
    by destruct (parseEntries Unmarshal (map_to_list ∅) []).
Qed.

(** X13. A read that reports no error leaves the store settled: reading
    again changes nothing in the cluster, does not read the clock (no
    migration runs) and returns the same list. *)
Theorem GetRedactInfo_settles c t :
  (GetRedactInfo decode Marshal Unmarshal Now c t).1.2.2 = None →
  GetRedactInfo decode Marshal Unmarshal Now
    (GetRedactInfo decode Marshal Unmarshal Now c t).1.1
    (GetRedactInfo decode Marshal Unmarshal Now c t).2
  = GetRedactInfo decode Marshal Unmarshal Now c t.
Proof.
  destruct (GetRedactInfo_cases c t) as [[_ ->]|[->|(data & t' & Hl & ->)]]; [done..|].
  simpl. intros _. by apply GetRedactInfo_fixed.
Qed.

(** X14. A read that fails before it writes leaves the cluster as it was
    and does not read the clock: this is so when the cluster cannot be
    reached and when the combined document cannot be split.  Every other
    error names an entry that cannot be parsed. *)
Theorem GetRedactInfo_failure_writes_nothing c t msg :
  (GetRedactInfo decode Marshal Unmarshal Now c t).1.2.2 = Some msg →
  (msg = "get redactors configmap" ∨ msg = "failed to split combined redactors"
   ∨ ∃ k, msg = "unable to parse key " +:+ k)
  ∧ ((msg = "get redactors configmap" ∨ msg = "failed to split combined redactors") →
     GetRedactInfo decode Marshal Unmarshal Now c t = (c, (None, Some msg), t)).
Proof.
  destruct (GetRedactInfo_cases c t) as [[_ ->]|[->|(data & t' & Hl & ->)]]; simpl.
  - intros [= <-]. split; [by left|done].
  - intros [= <-]. split; [by right; left|done].
  - destruct (parseEntries Unmarshal (map_to_list data) []) as [l|msg'] eqn:Hp; [done|].
    simpl. intros [= <-]. destruct (parseEntries_error _ _ _ Hp) as [k ->].
    split; [right; right; eauto|]. intros [H|H]; discriminate.
Qed.
End MigrationMore.

Lemma splitRedactors_one_entry_per_rule_witness :
  NoDup (slugsFrom 0 [Some rule_a; Some rule_b])
  ∧ legacyKey ∉ slugsFrom 0 [Some rule_a; Some rule_b]
  ∧ ∃ m t',
      splitRedactors toy_decode_ab toy_Marshal (λ n, n) "doc" {[legacyKey := "doc"]} 0
      = (Some m, None, t')
      ∧ m !! legacyKey = None.
Proof.
  assert (slugsFrom 0 [Some rule_a; Some rule_b] = ["a"; "b"]) as E by reflexivity.
  assert (NoDup (slugsFrom 0 [Some rule_a; Some rule_b])) as Hn.
  { rewrite E. apply NoDup_cons. split; [|apply NoDup_singleton].
    intros H. apply list_elem_of_singleton in H. discriminate. }
  assert (legacyKey ∉ slugsFrom 0 [Some rule_a; Some rule_b]) as Hl.
  { rewrite E. intros [H|[H|H%elem_of_nil]%elem_of_cons]%elem_of_cons; [..|done];
      discriminate. }
  split_and!; [exact Hn|exact Hl|].
  destruct (splitRedactors_one_entry_per_rule toy_decode_ab toy_Marshal (λ n, n)
              "doc" {[legacyKey := "doc"]} 0 [Some rule_a; Some rule_b]
              eq_refl (λ e, ltac:(by eexists)) Hn Hl)
    as (m & t' & Hs & Hleg & _).
  exists m, t'. split; [exact Hs|exact Hleg].
Defined.

Lemma GetRedactInfo_other_kind_clears_store_witness :
  ({[legacyKey := "doc"; "kept" := "entry"]} : gmap string string) !! legacyKey = Some "doc"
  ∧ GetRedactInfo toy_decode_other toy_Marshal toy_Unmarshal (λ n, n)
      {| configMap := Some {[legacyKey := "doc"; "kept" := "entry"]}; reachable := true |} 0
    = ({| configMap := Some ∅; reachable := true |}, (Some [], None), 0).
Proof.
  assert (({[legacyKey := "doc"; "kept" := "entry"]} : gmap string string) !! legacyKey
          = Some "doc") as Hl by (vm_compute; reflexivity).
  split; [exact Hl|].
  exact (proj2 (GetRedactInfo_other_kind_clears_store toy_decode_other toy_Marshal
                  toy_Unmarshal (λ n, n) _ "doc" 0 Hl eq_refl)).
Defined.

Lemma GetRedactInfo_settles_witness :
  let c := {| configMap := Some {[legacyKey := "two rules named a"]}; reachable := true |} in
  (GetRedactInfo toy_decode toy_Marshal toy_Unmarshal (λ n, n) c 0).1.2.2 = None
  ∧ GetRedactInfo toy_decode toy_Marshal toy_Unmarshal (λ n, n)
      (GetRedactInfo toy_decode toy_Marshal toy_Unmarshal (λ n, n) c 0).1.1
      (GetRedactInfo toy_decode toy_Marshal toy_Unmarshal (λ n, n) c 0).2
    = GetRedactInfo toy_decode toy_Marshal toy_Unmarshal (λ n, n) c 0.
Proof.
  intros c.
  assert ((GetRedactInfo toy_decode toy_Marshal toy_Unmarshal (λ n, n) c 0).1.2.2 = None)
    as H by (vm_compute; reflexivity).
  split; [exact H|].
  exact (GetRedactInfo_settles toy_decode toy_Marshal toy_Unmarshal (λ n, n) c 0 H).
Defined.

Lemma GetRedactInfo_failure_writes_nothing_witness :
  let c := {| configMap := Some {[legacyKey := "doc"]}; reachable := false |} in
  (GetRedactInfo toy_decode toy_Marshal toy_Unmarshal (λ n, n) c 0).1.2.2
  = Some "get redactors configmap"
  ∧ GetRedactInfo toy_decode toy_Marshal toy_Unmarshal (λ n, n) c 0
    = (c, (None, Some "get redactors configmap"), 0).
Proof.
  intros c.
  assert ((GetRedactInfo toy_decode toy_Marshal toy_Unmarshal (λ n, n) c 0).1.2.2
          = Some "get redactors configmap") as H by reflexivity.
  split; [exact H|].
  apply (proj2 (GetRedactInfo_failure_writes_nothing toy_decode toy_Marshal toy_Unmarshal
                  (λ n, n) c 0 _ H)).
  by left.
Defined.

(** ** Reading, deleting and writing single entries *)

Section EntryFacts.
Context {Time Body : Type}.
Variable Marshal : @RedactorMetadata Time Body → option string.
Variable Unmarshal : string → option (@RedactorMetadata Time Body).
Variable Now : nat → Time.
Variable ParseYaml : string → option (@Redact Body).

Lemma GetRedactBySlug_reachable slug data :
  GetRedactBySlug Unmarshal slug {| configMap := Some data; reachable := true |}
  = ({| configMap := Some data; reachable := true |},
     match data !! slug with
     | None => (None, Some ("redactor " +:+ slug +:+ " not found"))
     | Some redactString =>
         match Unmarshal redactString with
         | None => (None, Some ("unable to parse redactor " +:+ slug))
         | Some redactorEntry => (Some redactorEntry, None)
         end
     end).
Proof.
  unfold GetRedactBySlug, getConfigmap. cbn [reachable configMap].
  destruct (data !! slug) as [v|]; [|done]. by destruct (Unmarshal v).
Qed.

(** X15. [DeleteRedact] on a cluster that can be reached always succeeds,
    also for a slug that is not there; afterwards [GetRedactBySlug] does
    not find the slug, and finds under every other slug what it found
    before.  On a cluster that cannot be reached it fails and changes
    nothing. *)
Theorem DeleteRedact_then_lookup slug data :
  let c := {| configMap := Some data; reachable := true |} in
  DeleteRedact slug c = ({| configMap := Some (delete slug data); reachable := true |}, None)
  ∧ (GetRedactBySlug Unmarshal slug (DeleteRedact slug c).1).2
    = (None, Some ("redactor " +:+ slug +:+ " not found"))
  ∧ (∀ k, k ≠ slug →
       (GetRedactBySlug Unmarshal k (DeleteRedact slug c).1).2
       = (GetRedactBySlug Unmarshal k c).2)
  ∧ (∀ cm, is_Some (DeleteRedact slug {| configMap := cm; reachable := false |}).2
           ∧ (DeleteRedact slug {| configMap := cm; reachable := false |}).1
             = {| configMap := cm; reachable := false |}).
Proof.
  intros c.
  assert (DeleteRedact slug c
          = ({| configMap := Some (delete slug data); reachable := true |}, None)) as E
    by reflexivity.
  split_and!.
  - exact E.
  - rewrite E. simpl. rewrite GetRedactBySlug_reachable. by rewrite lookup_delete_eq.
  - intros k Hk. rewrite E. simpl. unfold c.
    rewrite !GetRedactBySlug_reachable. simpl. by rewrite lookup_delete_ne.
  - intros cm. split; [by eexists|done].
Qed.

Lemma createRedactor_eq name slug (spec : @Redact Body) data t :
  createRedactor Now name slug spec data t =
    match data !! createdSlug name slug spec with
    | Some _ =>
        inr ("refusing to create new redact spec with name "
             +:+ createdName name slug spec +:+ " - slug "
             +:+ createdSlug name slug spec +:+ " already exists")
    | None =>
        inl (createdSlug name slug spec,
             (createdName name slug spec, createdSlug name slug spec, Now t),
             {| RedactName := createdName name slug spec; RedactBody := RedactBody spec |},
             S t)
    end.
Proof.
  unfold createRedactor, createdSlug, createdName.
  destruct (decide (RedactName spec = EmptyString ∧ name = EmptyString)) as [H|H]; simpl.
  - done.
  - destruct (decide (name ≠ EmptyString)); simpl; [done|]. by destruct spec.
Qed.

(** X16. [SetRedactYaml] does not overwrite when it creates: if the slug it
    settles on is a key of the store, it returns an error, the store is as
    it was and the clock has not been read. *)
Theorem SetRedactYaml_refuses_existing_slug name slug description enabled newRedact
    yamlBytes (spec : @Redact Body) data t :
  ParseYaml yamlBytes = Some spec →
  newRedact = true ∨ data !! slug = None →
  is_Some (data !! createdSlug name slug spec) →
  SetRedactYaml Marshal Unmarshal Now ParseYaml name slug description enabled newRedact
    yamlBytes {| configMap := Some data; reachable := true |} t
  = ({| configMap := Some data; reachable := true |},
     (None, Some ("refusing to create new redact spec with name "
                  +:+ createdName name slug spec +:+ " - slug "
                  +:+ createdSlug name slug spec +:+ " already exists")), t).
Proof.
  intros Hy Hnew [v Hv]. unfold SetRedactYaml, getConfigmap. rewrite Hy.
  cbn [reachable configMap default]. unfold id.
  rewrite createRedactor_eq, Hv.
  destruct (data !! slug) as [old|] eqn:Hs.
  - destruct Hnew as [->|?]; [done|done].
  - done.
Qed.

(** X17. When [SetRedactYaml] creates an entry and the slug it settles on
    is free, the entry is stored under that slug and no other key changes;
    the entry carries the name, the slug, the description and the enabled
    flag it was given.  If the stored text parses back to the entry,
    [GetRedactBySlug] returns the entry under that slug. *)
Theorem SetRedactYaml_creates name slug description enabled newRedact
    yamlBytes (spec : @Redact Body) data t json :
  let entry :=
    {| Metadata := {| Name := createdName name slug spec;
                      Slug := createdSlug name slug spec;
                      Created := Now t;
                      Updated := Now (S t);
                      Enabled := enabled;
                      Description := description |};
       RedactSpec := {| RedactName := createdName name slug spec;
                        RedactBody := RedactBody spec |} |} in
  let c' := {| configMap := Some (<[createdSlug name slug spec := json]> data);
               reachable := true |} in
  ParseYaml yamlBytes = Some spec →
  newRedact = true ∨ data !! slug = None →
  data !! createdSlug name slug spec = None →
  Marshal entry = Some json →
  SetRedactYaml Marshal Unmarshal Now ParseYaml name slug description enabled newRedact
    yamlBytes {| configMap := Some data; reachable := true |} t
  = (c', (Some entry, None), S (S t))
  ∧ (Unmarshal json = Some entry →
     GetRedactBySlug Unmarshal (createdSlug name slug spec) c' = (c', (Some entry, None))).
Proof.
  intros entry c' Hy Hnew Hfree Hm. split.
  - unfold SetRedactYaml, getConfigmap. rewrite Hy.
    cbn [reachable configMap default]. unfold id.
    rewrite createRedactor_eq, Hfree.
    assert (match data !! slug with
            | Some _ => if newRedact then True else False
            | None => True
            end) as Hbranch.
    { destruct (data !! slug); [|done]. by destruct Hnew as [->|?]. }
    destruct (data !! slug) as [old|]; [destruct newRedact; [|done]|];
      cbn [fst snd]; fold entry; rewrite Hm; reflexivity.
  - intros Hu. unfold c'. rewrite GetRedactBySlug_reachable.
    by rewrite lookup_insert_eq, Hu.
Qed.

(** X18. When [SetRedactYaml] updates the entry under [slug] and the name
    it settles on derives another slug, the entry moves: if the new slug is
    a key of the store the call returns an error and the store is as it
    was; otherwise the old key is removed and the entry, with its creation
    time kept, is stored under the new slug. *)
Theorem SetRedactYaml_renames name slug description enabled yamlBytes
    (spec : @Redact Body) data t old (oldEntry : @RedactorMetadata Time Body) :
  let newName := updatedName name spec in
  let entry :=
    {| Metadata := {| Name := newName;
                      Slug := getSlug newName;
                      Created := Created (Metadata oldEntry);
                      Updated := Now t;
                      Enabled := enabled;
                      Description := description |};
       RedactSpec := {| RedactName := newName; RedactBody := RedactBody spec |} |} in
  ParseYaml yamlBytes = Some spec →
  data !! slug = Some old → Unmarshal old = Some oldEntry →
  newName ≠ EmptyString → getSlug newName ≠ slug →
  (is_Some (data !! getSlug newName) →
   SetRedactYaml Marshal Unmarshal Now ParseYaml name slug description enabled false
     yamlBytes {| configMap := Some data; reachable := true |} t
   = ({| configMap := Some data; reachable := true |},
      (None, Some ("refusing to change slug from " +:+ slug +:+ " to "
                   +:+ getSlug newName +:+ " as that already exists")), t))
  ∧ (∀ json, data !! getSlug newName = None → Marshal entry = Some json →
     SetRedactYaml Marshal Unmarshal Now ParseYaml name slug description enabled false
       yamlBytes {| configMap := Some data; reachable := true |} t
     = ({| configMap := Some (<[getSlug newName := json]> (delete slug data));
           reachable := true |},
        (Some entry, None), S t)).
Proof.
  intros newName entry Hy Hs Hu Hne Hslug.
  assert (∀ x : @Redact Body,
            {| RedactName := RedactName x; RedactBody := RedactBody x |} = x) as Heta
    by (by intros []).
  assert ((if decide (name ≠ RedactName spec ∧ name ≠ EmptyString)
           then {| RedactName := name; RedactBody := RedactBody spec |}
           else spec)
          = {| RedactName := newName; RedactBody := RedactBody spec |}) as Hspec.
  { unfold newName, updatedName. case_decide; [done|]. by rewrite Heta. }
  split.
  - intros [v Hv]. unfold SetRedactYaml, getConfigmap. rewrite Hy.
    cbn [reachable configMap default]. unfold id. rewrite Hs.
    unfold updateRedactor. rewrite Hu, Hspec. cbn [RedactName RedactBody].
    rewrite decide_True by (split; [by apply not_eq_sym|done]).
    by rewrite Hv.
  - intros json Hfree Hm. unfold SetRedactYaml, getConfigmap. rewrite Hy.
    cbn [reachable configMap default]. unfold id. rewrite Hs.
    unfold updateRedactor. rewrite Hu, Hspec. cbn [RedactName RedactBody].
    rewrite decide_True by (split; [by apply not_eq_sym|done]).
    rewrite Hfree. rewrite decide_False by done.
    cbn [fst snd]. fold entry. rewrite Hm. reflexivity.
Qed.
End EntryFacts.

Lemma DeleteRedact_then_lookup_witness :
  let c := {| configMap := Some {["a" := "x"; "b" := "y"]}; reachable := true |} in
  ("b" : string) ≠ "a"
  ∧ (GetRedactBySlug toy_Unmarshal "b" (DeleteRedact "a" c).1).2
    = (GetRedactBySlug toy_Unmarshal "b" c).2.
Proof.
  intros c. assert (("b" : string) ≠ "a") as Hne by discriminate.
  split; [exact Hne|].
  exact (proj1 (proj2 (proj2 (DeleteRedact_then_lookup toy_Unmarshal "a" _))) "b" Hne).
Defined.

Lemma SetRedactYaml_refuses_existing_slug_witness :
  toy_ParseYaml "a b" = Some {| RedactName := "a b"; RedactBody := () |}
  ∧ is_Some (({["a-b" := "x"]} : gmap string string)
               !! createdSlug EmptyString "s" {| RedactName := "a b"; RedactBody := () |})
  ∧ (SetRedactYaml toy_Marshal toy_Unmarshal (λ n, n) toy_ParseYaml EmptyString "s" "d"
       true true "a b" {| configMap := Some {["a-b" := "x"]}; reachable := true |} 0).1.1
    = {| configMap := Some {["a-b" := "x"]}; reachable := true |}.
Proof.
  assert (is_Some (({["a-b" := "x"]} : gmap string string)
            !! createdSlug EmptyString "s" {| RedactName := "a b"; RedactBody := () |})) as H.
  { exists "x". vm_compute. reflexivity. }
  split_and!; [reflexivity|exact H|].
  rewrite (SetRedactYaml_refuses_existing_slug toy_Marshal toy_Unmarshal (λ n, n)
             toy_ParseYaml EmptyString "s" "d" true true "a b"
             {| RedactName := "a b"; RedactBody := () |} {["a-b" := "x"]} 0
             eq_refl (or_introl eq_refl) H).
  reflexivity.
Defined.

Lemma SetRedactYaml_creates_witness :
  (∅ : gmap string string)
    !! createdSlug EmptyString "s" {| RedactName := "a b"; RedactBody := () |} = None
  ∧ (SetRedactYaml toy_Marshal toy_Unmarshal (λ n, n) toy_ParseYaml EmptyString "s" "d"
       true true "a b" {| configMap := Some ∅; reachable := true |} 0).1.1
    = {| configMap := Some {["a-b" := "a b"]}; reachable := true |}.
Proof.
  split; [apply lookup_empty|].
  rewrite (proj1 (SetRedactYaml_creates toy_Marshal toy_Unmarshal (λ n, n)
             toy_ParseYaml EmptyString "s" "d" true true "a b"
             {| RedactName := "a b"; RedactBody := () |} ∅ 0 "a b"
             eq_refl (or_introl eq_refl) (lookup_empty _) eq_refl)).
  vm_compute. reflexivity.
Defined.

Lemma SetRedactYaml_renames_witness :
  ({["old" := "a"]} : gmap string string) !! "old" = Some "a"
  ∧ toy_Unmarshal "a" = Some (newRedactor (λ n, n) 1 rule_a 2)
  ∧ getSlug (updatedName "new name" {| RedactName := "x"; RedactBody := () |}) ≠ "old"
  ∧ (SetRedactYaml toy_Marshal toy_Unmarshal (λ n, n) toy_ParseYaml "new name" "old" "d"
       true false "x" {| configMap := Some {["old" := "a"]}; reachable := true |} 5).1.1
    = {| configMap := Some {["new-name" := "new name"]}; reachable := true |}.
Proof.
  assert (getSlug (updatedName "new name" {| RedactName := "x"; RedactBody := () |}) ≠ "old")
    as Hs by (vm_compute; discriminate).
  assert (({["old" := "a"]} : gmap string string) !! "old" = Some "a") as Ho
    by (vm_compute; reflexivity).
  split_and!; [exact Ho|reflexivity|exact Hs|].
  rewrite (proj2 (SetRedactYaml_renames toy_Marshal toy_Unmarshal (λ n, n)
             toy_ParseYaml "new name" "old" "d" true "x"
             {| RedactName := "x"; RedactBody := () |} {["old" := "a"]} 5 "a"
             (newRedactor (λ n, n) 1 rule_a 2)
             eq_refl Ho eq_refl ltac:(vm_compute; discriminate) Hs)
             "new name" ltac:(vm_compute; reflexivity) eq_refl).
  vm_compute. reflexivity.
Defined.

(** ** The full redactor *)

Section BuildFacts.
Context {Time Body : Type}.
Variable decode : string → option (@decoded Body).
Variable Unmarshal : string → option (@RedactorMetadata Time Body).

Lemma buildLoop_cons kv rest acc :
  buildLoop decode Unmarshal (kv :: rest) acc =
    match contribution decode Unmarshal kv with
    | Some c => buildLoop decode Unmarshal rest (acc ++ c)
    | None =>
        inr (if decide (kv.1 = legacyKey) then "deserialize combined redact spec"
             else "unable to parse key " +:+ kv.1)
    end.
Proof.
  destruct kv as [k v]. unfold contribution. simpl.
  destruct (decide (k = legacyKey)).
  - destruct (decode v) as [[rs|]|]; [done| |done]. by rewrite app_nil_r.
  - destruct (Unmarshal v) as [e|]; [|done].
    destruct (Enabled (Metadata e)); [done|]. by rewrite app_nil_r.
Qed.

Lemma same_rules_trans (r1 r2 r3 : list (option (@Redact Body)) + string) :
  same_rules r1 r2 → same_rules r2 r3 → same_rules r1 r3.
Proof.
  destruct r1, r2, r3; simpl; try done. intros H1 H2. by rewrite H1.
Qed.

Lemma buildLoop_acc kvs : ∀ acc acc',
  acc ≡ₚ acc' → same_rules (buildLoop decode Unmarshal kvs acc) (buildLoop decode Unmarshal kvs acc').
Proof.
  induction kvs as [|kv kvs IH]; intros acc acc' Hp; [done|].
  rewrite !buildLoop_cons. destruct (contribution decode Unmarshal kv) as [c|]; [|done].
  apply IH. by rewrite Hp.
Qed.

Lemma buildLoop_Permutation kvs kvs' :
  kvs ≡ₚ kvs' → ∀ acc, same_rules (buildLoop decode Unmarshal kvs acc) (buildLoop decode Unmarshal kvs' acc).
Proof.
  induction 1 as [|kv kvs kvs' _ IH|kv1 kv2 kvs|kvs1 kvs2 kvs3 _ IH1 _ IH2]; intros acc.
  - simpl. reflexivity.
  - rewrite !buildLoop_cons. destruct (contribution decode Unmarshal kv); [apply IH|done].
  - rewrite (buildLoop_cons kv2), (buildLoop_cons kv1).
    destruct (contribution decode Unmarshal kv1) as [c1|] eqn:E1, (contribution decode Unmarshal kv2) as [c2|] eqn:E2;
      rewrite ?buildLoop_cons, ?E1, ?E2; try done.
    apply buildLoop_acc. rewrite <- !app_assoc. apply Permutation_app_head, Permutation_app_comm.
  - eapply same_rules_trans; [apply IH1|apply IH2].
Qed.

Lemma buildLoop_elem kvs : ∀ acc rs,
  buildLoop decode Unmarshal kvs acc = inl rs →
  ∀ x, x ∈ rs ↔ x ∈ acc ∨ ∃ kv c, kv ∈ kvs ∧ contribution decode Unmarshal kv = Some c ∧ x ∈ c.
Proof.
  induction kvs as [|kv kvs IH]; intros acc rs.
  - intros [= <-] x. split; [by left|].
    intros [?|(? & ? & ?%elem_of_nil & _)]; done.
  - rewrite buildLoop_cons. destruct (contribution decode Unmarshal kv) as [c|] eqn:Ec; [|done].
    intros H x. rewrite (IH _ _ H), elem_of_app. split.
    + intros [[?|?]|(kv' & c' & Hin & Hc & Hx)]; [by left| |].
      * right. exists kv, c. split_and!; [left|done..].
      * right. exists kv', c'. split_and!; [by right|done..].
    + intros [?|(kv' & c' & [->|Hin]%elem_of_cons & Hc & Hx)]; [by left;left| |].
      * simplify_eq. left. by right.
      * right. eauto.
Qed.

Lemma buildLoop_fails kvs : ∀ acc,
  (∃ msg, buildLoop decode Unmarshal kvs acc = inr msg) ↔ ∃ kv, kv ∈ kvs ∧ contribution decode Unmarshal kv = None.
Proof.
  induction kvs as [|kv kvs IH]; intros acc.
  - split; [by intros [? ?]|]. by intros (? & ?%elem_of_nil & _).
  - rewrite buildLoop_cons. destruct (contribution decode Unmarshal kv) as [c|] eqn:Ec.
    + rewrite IH. split.
      * intros (kv' & Hin & Hc). exists kv'. split; [by right|done].
      * intros (kv' & [->|Hin]%elem_of_cons & Hc); [congruence|eauto].
    + split; [|by eauto]. intros _. exists kv. split; [left|done].
Qed.

(** X19. On a store without the legacy key, whatever the order in which the
    map is ranged over: [buildFullRedact] fails exactly when some entry
    does not parse; otherwise its result holds exactly the rules of the
    entries that are enabled, no nil rule, and is a permutation of the
    result for any other order. *)
Theorem buildFullRedact_enabled_entries data kvs :
  kvs ≡ₚ map_to_list data → data !! legacyKey = None →
  ((∃ msg, buildFullRedact_in decode Unmarshal kvs = inr msg)
   ↔ ∃ k v, data !! k = Some v ∧ Unmarshal v = None)
  ∧ same_rules (buildFullRedact_in decode Unmarshal kvs) (buildFullRedact decode Unmarshal data)
  ∧ ∀ rs, buildFullRedact_in decode Unmarshal kvs = inl rs →
      None ∉ rs
      ∧ ∀ r, Some r ∈ rs ↔
             ∃ k v e, data !! k = Some v ∧ Unmarshal v = Some e
                      ∧ Enabled (Metadata e) = true ∧ RedactSpec e = r.
Proof.
  intros Hp Hl.
  assert (∀ k v, (k, v) ∈ kvs ↔ data !! k = Some v) as Hin.
  { intros k v. by rewrite Hp, elem_of_map_to_list. }
  assert (∀ k v, (k, v) ∈ kvs →
            contribution decode Unmarshal (k, v) =
              match Unmarshal v with
              | None => None
              | Some e => if Enabled (Metadata e) then Some [Some (RedactSpec e)] else Some []
              end) as Hc.
  { intros k v Hkv. unfold contribution. simpl. rewrite decide_False; [done|].
    intros ->. apply Hin in Hkv. congruence. }
  unfold buildFullRedact, buildFullRedact_in. split_and!.
  - rewrite buildLoop_fails. split.
    + intros ([k v] & Hkv & Hn). rewrite (Hc _ _ Hkv) in Hn.
      exists k, v. split; [by apply Hin|].
      destruct (Unmarshal v) as [e|]; [|done]. by destruct (Enabled (Metadata e)).
    + intros (k & v & Hk & Hu). exists (k, v). apply Hin in Hk. split; [done|].
      by rewrite (Hc _ _ Hk), Hu.
  - by apply buildLoop_Permutation.
  - intros rs Hrs. pose proof (buildLoop_elem _ _ _ Hrs) as He. split.
    + intros Hnone. apply He in Hnone as [?%elem_of_nil|([k v] & c & Hkv & Hcon & Hx)]; [done|].
      rewrite (Hc _ _ Hkv) in Hcon. destruct (Unmarshal v) as [e|]; [|done].
      destruct (Enabled (Metadata e)); simplify_eq.
      * by apply list_elem_of_singleton in Hx.
      * by apply elem_of_nil in Hx.
    + intros r. rewrite He. split.
      * intros [?%elem_of_nil|([k v] & c & Hkv & Hcon & Hx)]; [done|].
        rewrite (Hc _ _ Hkv) in Hcon. destruct (Unmarshal v) as [e|] eqn:Hu; [|done].
        destruct (Enabled (Metadata e)) eqn:Hen; simplify_eq.
        -- apply list_elem_of_singleton in Hx. simplify_eq.
           exists k, v, e. split_and!; [by apply Hin|done..].
        -- by apply elem_of_nil in Hx.
      * intros (k & v & e & Hk & Hu & Hen & <-). right.
        apply Hin in Hk. exists (k, v), [Some (RedactSpec e)].
        split_and!; [done| |left]. by rewrite (Hc _ _ Hk), Hu, Hen.
Qed.
End BuildFacts.

Lemma buildFullRedact_enabled_entries_witness :
  map_to_list ({["k" := "a"]} : gmap string string) ≡ₚ map_to_list {["k" := "a"]}
  ∧ ({["k" := "a"]} : gmap string string) !! legacyKey = None
  ∧ same_rules (buildFullRedact_in toy_decode toy_Unmarshal (map_to_list {["k" := "a"]}))
               (buildFullRedact toy_decode toy_Unmarshal {["k" := "a"]}).
Proof.
  assert (({["k" := "a"]} : gmap string string) !! legacyKey = None) as Hl
    by (vm_compute; reflexivity).
  split_and!; [done|exact Hl|].
  exact (proj1 (proj2 (buildFullRedact_enabled_entries toy_decode toy_Unmarshal
                         {["k" := "a"]} _ (reflexivity _) Hl))).
Defined.

(** ** The migration and the full redactor *)

Section MigrationBuild.
Context {Time Body : Type}.
Variable decode : string → option (@decoded Body).
Variable Marshal : @RedactorMetadata Time Body → option string.
Variable Unmarshal : string → option (@RedactorMetadata Time Body).
Variable Now : nat → Time.

Lemma slugsFrom_elem_inv (rs : list (option (@Redact Body))) : ∀ idx s,
  s ∈ slugsFrom idx rs →
  ∃ p r, rs !! p = Some (Some r) ∧ getSlug (redactorNameOf (idx + p) r) = s.
Proof.
  induction rs as [|[r|] rs IH]; intros idx s Hs; simpl in Hs.
  - by apply elem_of_nil in Hs.
  - apply elem_of_cons in Hs as [->|Hs].
    + exists 0, r. by rewrite Nat.add_0_r.
    + destruct (IH _ _ Hs) as (p & r' & Hp & E). exists (S p), r'.
      split; [done|]. by replace (idx + S p) with (S idx + p) by lia.
  - destruct (IH _ _ Hs) as (p & r' & Hp & E). exists (S p), r'.
    split; [done|]. by replace (idx + S p) with (S idx + p) by lia.
Qed.

(** X20. The migration keeps the rules.  Before it, the full redactor of a
    store that holds only the combined document is the list of its rules.
    When the rules that are not nil derive pairwise distinct slugs, none
    the legacy key, and every entry written parses back, the full redactor
    of the migrated store holds exactly those rules, each under the name
    it was split under, and no nil rule. *)
Theorem migration_keeps_rules doc rs t :
  decode doc = Some (IsRedactor rs) →
  NoDup (slugsFrom 0 rs) → legacyKey ∉ slugsFrom 0 rs →
  (∀ e, is_Some (Marshal e)) →
  (∀ p r tp json, rs !! p = Some (Some r) →
     Marshal (newRedactor Now p r tp) = Some json →
     Unmarshal json = Some (newRedactor Now p r tp)) →
  buildFullRedact decode Unmarshal {[legacyKey := doc]} = inl rs
  ∧ ∃ m t' rs',
      splitRedactors decode Marshal Now doc {[legacyKey := doc]} t = (Some m, None, t')
      ∧ buildFullRedact decode Unmarshal m = inl rs'
      ∧ None ∉ rs'
      ∧ ∀ x, Some x ∈ rs' ↔
             ∃ p r, rs !! p = Some (Some r)
                    ∧ x = {| RedactName := redactorNameOf p r; RedactBody := RedactBody r |}.
Proof.
  intros Hdec Hnd Hleg Hm Hround. split.
  - unfold buildFullRedact, buildFullRedact_in.
    rewrite map_to_list_singleton, (buildLoop_cons decode Unmarshal).
    unfold contribution. cbn [fst snd].
    destruct (decide (legacyKey = legacyKey)); [|done]. by rewrite Hdec.
  - destruct (splitRedactors_distinct decode Marshal Now doc {[legacyKey := doc]} t rs
                Hdec Hm Hnd Hleg) as (m & t' & Hs & Hnl & Hent & Hother & _).
    assert (∀ k v, m !! k = Some v →
              ∃ p r tp, rs !! p = Some (Some r)
                        ∧ Unmarshal v = Some (newRedactor Now p r tp)) as Hfrom.
    { intros k v Hk.
      assert (k ≠ legacyKey) as Hne by congruence.
      destruct (decide (k ∈ slugsFrom 0 rs)) as [Hin|Hout].
      - destruct (slugsFrom_elem_inv rs 0 k Hin) as (p & r & Hp & <-). simpl in *.
        destruct (Hent p r Hp) as (tp & json & Hj & Hl & _).
        exists p, r, tp. split; [done|]. rewrite Hl in Hk. simplify_eq. eauto.
      - rewrite (Hother k Hout Hne), lookup_singleton_ne in Hk by done. done. }
    assert (∀ kv, kv ∈ map_to_list m →
              ∃ p r tp, rs !! p = Some (Some r)
                ∧ contribution decode Unmarshal kv
                  = Some [Some (RedactSpec (newRedactor Now p r tp))]) as Hcon.
    { intros [k v] Hkv%elem_of_map_to_list.
      destruct (Hfrom k v Hkv) as (p & r & tp & Hp & Hu). exists p, r, tp.
      split; [done|]. unfold contribution. simpl.
      rewrite decide_False by congruence. by rewrite Hu. }
    destruct (buildFullRedact decode Unmarshal m) as [rs'|msg] eqn:Hb.
    2:{ exfalso. unfold buildFullRedact, buildFullRedact_in in Hb.
        destruct (proj1 (buildLoop_fails decode Unmarshal _ _) (ex_intro _ msg Hb))
          as (kv & Hin & Hnone).
        destruct (Hcon kv Hin) as (? & ? & ? & _ & ?). congruence. }
    exists m, t', rs'. split_and!; [done|done|..].
    + unfold buildFullRedact, buildFullRedact_in in Hb.
      intros Hx. apply (buildLoop_elem decode Unmarshal _ _ _ Hb) in Hx
        as [?%elem_of_nil|(kv & c & Hin & Hc & Hx)]; [done|].
      destruct (Hcon kv Hin) as (? & ? & ? & _ & Hc'). rewrite Hc' in Hc. simplify_eq.
      by apply list_elem_of_singleton in Hx.
    + unfold buildFullRedact, buildFullRedact_in in Hb.
      intros x. rewrite (buildLoop_elem decode Unmarshal _ _ _ Hb). split.
      * intros [?%elem_of_nil|(kv & c & Hin & Hc & Hx)]; [done|].
        destruct (Hcon kv Hin) as (p & r & tp & Hp & Hc'). rewrite Hc' in Hc. simplify_eq.
        apply list_elem_of_singleton in Hx. simplify_eq. eauto.
      * intros (p & r & Hp & ->). right.
        destruct (Hent p r Hp) as (tp & json & Hj & Hl & _).
        exists (getSlug (redactorNameOf p r), json),
               [Some (RedactSpec (newRedactor Now p r tp))].
        split_and!; [by apply elem_of_map_to_list| |left].
        unfold contribution. simpl. rewrite decide_False.
        -- by rewrite (Hround p r tp json Hp Hj).
        -- intros E. apply Hleg. rewrite <- E. by apply (elem_of_slugsFrom rs 0 p r).
Qed.
End MigrationBuild.

Lemma migration_keeps_rules_witness :
  NoDup (slugsFrom 0 [Some rule_a; Some rule_b])
  ∧ legacyKey ∉ slugsFrom 0 [Some rule_a; Some rule_b]
  ∧ buildFullRedact toy_decode_ab toy_Unmarshal_ab {[legacyKey := "doc"]}
    = inl [Some rule_a; Some rule_b]
  ∧ ∃ m t' rs',
      splitRedactors toy_decode_ab toy_Marshal (λ _, 0) "doc" {[legacyKey := "doc"]} 0
      = (Some m, None, t')
      ∧ buildFullRedact toy_decode_ab toy_Unmarshal_ab m = inl rs'
      ∧ None ∉ rs'.
Proof.
  assert (slugsFrom 0 [Some rule_a; Some rule_b] = ["a"; "b"]) as E by reflexivity.
  assert (NoDup (slugsFrom 0 [Some rule_a; Some rule_b])) as Hn.
  { rewrite E. apply NoDup_cons. split; [|apply NoDup_singleton].
    intros H. apply list_elem_of_singleton in H. discriminate. }
  assert (legacyKey ∉ slugsFrom 0 [Some rule_a; Some rule_b]) as Hl.
  { rewrite E. intros [H|[H|H%elem_of_nil]%elem_of_cons]%elem_of_cons; [..|done];
      discriminate. }
  destruct (migration_keeps_rules toy_decode_ab toy_Marshal toy_Unmarshal_ab (λ _, 0)
              "doc" [Some rule_a; Some rule_b] 0 eq_refl Hn Hl
              (λ e, ltac:(by eexists)))
    as (Hb & m & t' & rs' & Hs & Hb' & Hnone & _).
  - intros p r tp json Hp Hj.
    destruct p as [|[|p]]; simpl in Hp; simplify_eq;
      vm_compute in Hj; injection Hj as <-; reflexivity.
  - split_and!; [exact Hn|exact Hl|exact Hb|].
    exists m, t', rs'. split_and!; [exact Hs|exact Hb'|exact Hnone].
Defined.

(** ** Reading the full redactor *)

Section ReadFacts.
Context {Time Body : Type}.
Variable decode : string → option (@decoded Body).
Variable Unmarshal : string → option (@RedactorMetadata Time Body).

(** X21. [GetRedact] does not migrate: a ConfigMap that exists is left as
    it is, whatever it holds and whether or not the call fails; the only
    write is the creation of the empty ConfigMap when there is none, and
    then the result is a redactor without rules and no error.  On a
    cluster that cannot be reached the result is nil with an error; and a
    result and an error never come together. *)
Theorem GetRedact_never_migrates c :
  (is_Some (configMap c) → (GetRedact decode Unmarshal c).1 = c)
  ∧ (reachable c = true → configMap c = None →
       GetRedact decode Unmarshal c
       = ({| configMap := Some ∅; reachable := true |}, (Some [], None)))
  ∧ (reachable c = false →
       ∃ msg, GetRedact decode Unmarshal c = (c, (None, Some msg)))
  ∧ (reachable c = true → ∀ data, configMap c = Some data →
       (GetRedact decode Unmarshal c).2
       = match buildFullRedact decode Unmarshal data with
         | inl rs => (Some rs, None)
         | inr msg => (None, Some msg)
         end)
  ∧ ((GetRedact decode Unmarshal c).2.1 = None ∨ (GetRedact decode Unmarshal c).2.2 = None).
Proof.
  unfold GetRedact, getConfigmap.
  destruct c as [[data|] [|]]; simpl.
  - split_and!.
    + intros _. by destruct (buildFullRedact decode Unmarshal data).
    + done.
    + done.
    + intros _ ? [= <-]. by destruct (buildFullRedact decode Unmarshal data).
    + destruct (buildFullRedact decode Unmarshal data); simpl; eauto.
  - split_and!; [done|done| |done|by left]. intros _. by eexists.
  - split_and!; [by intros [? ?]| |done|done|by right].
    intros _ _. unfold buildFullRedact, buildFullRedact_in.
    by rewrite map_to_list_empty.
  - split_and!; [by intros [? ?]|done| |done|by left]. intros _. by eexists.
Qed.
End ReadFacts.

Lemma GetRedact_never_migrates_witness :
  is_Some (configMap {| configMap := Some {[legacyKey := "doc"]}; reachable := true |})
  ∧ (GetRedact toy_decode_ab toy_Unmarshal_ab
       {| configMap := Some {[legacyKey := "doc"]}; reachable := true |}).1
    = {| configMap := Some {[legacyKey := "doc"]}; reachable := true |}.
Proof.
  assert (is_Some (configMap {| configMap := Some {[legacyKey := "doc"]}; reachable := true |}))
    as H by (by eexists).
  split; [exact H|].
  exact (proj1 (GetRedact_never_migrates toy_decode_ab toy_Unmarshal_ab _) H).
Defined.
